(** * crypto11: token resolution, one-time configuration and the session pool

    A shallow embedding of [crypto11.go].  The package keeps its state in
    package-level variables and talks to a PKCS#11 module through
    [github.com/miekg/pkcs11]; both are made explicit here: the globals are
    the fields of [State], the module is a record of answer functions
    ([World]), and every call into the module is appended to a trace so
    that "which calls were made" can be stated. *)

From Stdlib Require Import ZArith NArith String List Lia.
From stdpp Require Import base option list gmap strings.
Import ListNotations.

Local Open Scope string_scope.
Local Open Scope N_scope.
Local Open Scope list_scope.

(** ** Data *)

(** Go's [uint]: only compared and masked in this file, never added to. *)
Definition uint := N.

(** [*pkcs11.Ctx]: the identity of a loaded library; [nil] is [None]. *)
Definition Ctx := N.

(** [pkcs11.SessionHandle] *)
Definition SessionHandle := N.

(** The package's sentinel errors, and [pkcs11.Error] (a [CK_RV] code), the
    only error the module binding returns.  Go's [error] interface value is
    [option error], [nil] being [None]. *)
Inductive error : Type :=
| ErrTokenNotFound
| ErrKeyNotFound
| ErrNotConfigured
| ErrCannotOpenPKCS11
| ErrCannotGetRandomData
| ErrUnsupportedKeyType
| Pkcs11Error (rv : N).

#[global] Instance error_eq_dec : EqDecision error.
Proof. solve_decision. Defined.

(** [pkcs11.TokenInfo], the fields with textual or flag content. *)
Record TokenInfo := {
  Label : string;
  ManufacturerID : string;
  Model : string;
  SerialNumber : string;
  Flags : uint
}.

Record PKCS11Config := {
  Path : string;
  TokenSerial : string;
  TokenLabel : string;
  Pin : string;
  MaxTokenSession : Z
}.

(** Constants of the PKCS#11 standard, as [miekg/pkcs11] exports them. *)
Definition CKF_LOGIN_REQUIRED : uint := 0x4.
Definition CKF_SERIAL_SESSION : uint := 0x4.
Definition CKF_RW_SESSION : uint := 0x2.
Definition CKU_USER : uint := 1.

(** The module behind the binding.  Each field answers one entry point
    from its arguments (nothing in [Configure] asks the same question
    twice and expects a different answer); errors are [CK_RV] codes.
    [setup_failure] is the error, if any, that constructing a session pool
    reports. *)
Record World := {
  pkcs11_New : string -> option Ctx;
  mod_Initialize : Ctx -> option N;
  mod_GetSlotList : Ctx -> bool -> list uint + N;
  mod_GetTokenInfo : Ctx -> uint -> TokenInfo + N;
  mod_OpenSession : Ctx -> uint -> uint -> SessionHandle + N;
  mod_Login : Ctx -> SessionHandle -> uint -> string -> option N;
  setup_failure : uint -> Z -> option error
}.

(** Calls into the module, in the order they are made. *)
Inductive call : Type :=
| CallNew (path : string)
| CallInitialize (c : Ctx)
| CallGetSlotList (c : Ctx) (tokenPresent : bool)
| CallGetTokenInfo (c : Ctx) (slot : uint)
| CallOpenSession (c : Ctx) (slot : uint) (flags : uint)
| CallLogin (c : Ctx) (s : SessionHandle) (userType : uint) (pin : string).

#[global] Instance call_eq_dec : EqDecision call.
Proof. solve_decision. Defined.

(** One [log.Printf] line: the format and its single [%s] argument. *)
Inductive logarg : Type :=
| ArgString (s : string)
| ArgError (e : error).

Record logline := { fmt : string; arg : logarg }.

(** A per-slot session pool (§3 of the design: idle handles, number of
    sessions opened so far, ceiling). *)
Record Pool := {
  idle : list SessionHandle;
  opened : Z;
  ceiling : Z
}.

(** The package-level variables ("nasty globals"), the pools of the
    session layer, and what has been observed from outside. *)
Record State := {
  libHandle : option Ctx;
  session : SessionHandle;
  defaultSlot : uint;
  sessionPools : gmap uint Pool;
  calls : list call;
  logged : list logline
}.

Definition initial : State :=
  {| libHandle := None; session := 0; defaultSlot := 0;
     sessionPools := ∅; calls := []; logged := [] |}.

Definition set_libHandle (h : option Ctx) (st : State) : State :=
  {| libHandle := h; session := session st; defaultSlot := defaultSlot st;
     sessionPools := sessionPools st; calls := calls st; logged := logged st |}.

Definition set_defaultSlot (slot : uint) (st : State) : State :=
  {| libHandle := libHandle st; session := session st; defaultSlot := slot;
     sessionPools := sessionPools st; calls := calls st; logged := logged st |}.

Definition set_sessionPools (ps : gmap uint Pool) (st : State) : State :=
  {| libHandle := libHandle st; session := session st;
     defaultSlot := defaultSlot st;
     sessionPools := ps; calls := calls st; logged := logged st |}.

Definition record_call (c : call) (st : State) : State :=
  {| libHandle := libHandle st; session := session st;
     defaultSlot := defaultSlot st;
     sessionPools := sessionPools st; calls := calls st ++ [c];
     logged := logged st |}.

Definition record_log (l : logline) (st : State) : State :=
  {| libHandle := libHandle st; session := session st;
     defaultSlot := defaultSlot st;
     sessionPools := sessionPools st; calls := calls st;
     logged := logged st ++ [l] |}.

(** ** Computations over the globals

    A call either returns, never returns because it waits for a session
    that nobody will release, or panics (a method call through a nil
    [*pkcs11.Ctx]). *)
Inductive outcome (A : Type) : Type :=
| Returns (a : A) (st : State)
| Blocks (st : State)
| Panics (st : State).
Arguments Returns {A} a st.
Arguments Blocks {A} st.
Arguments Panics {A} st.

Definition M (A : Type) : Type := State -> outcome A.

Definition ret {A} (a : A) : M A := fun st => Returns a st.

Definition bind {A B} (m : M A) (k : A -> M B) : M B :=
  fun st =>
    match m st with
    | Returns a st' => k a st'
    | Blocks st' => Blocks st'
    | Panics st' => Panics st'
    end.

Notation "x <- m ;; k" := (bind m (fun x => k))
  (at level 100, m at next level, right associativity, only parsing).
Notation "m ;;; k" := (bind m (fun _ => k))
  (at level 100, right associativity, only parsing).

Definition get_libHandle : M (option Ctx) := fun st => Returns (libHandle st) st.
Definition get_defaultSlot : M uint := fun st => Returns (defaultSlot st) st.
Definition modify (f : State -> State) : M unit := fun st => Returns tt (f st).

(** [log.Printf(fmt, arg)] *)
Definition Printf (f : string) (a : logarg) : M unit :=
  modify (record_log {| fmt := f; arg := a |}).

(** [toError] of the binding: a [CK_RV] becomes a [pkcs11.Error]. *)
Definition toError (rv : option N) : option error := Pkcs11Error <$> rv.

Definition toResult {A} (r : A + N) : A + error :=
  match r with
  | inl a => inl a
  | inr rv => inr (Pkcs11Error rv)
  end.

Section Crypto11.

Context (pk : World).

(** A method call [libHandle.m(...)]: dereferences the global handle. *)
Definition via_libHandle {A} (c : Ctx -> call) (answer : Ctx -> A) : M A :=
  fun st =>
    match libHandle st with
    | None => Panics st
    | Some h => Returns (answer h) (record_call (c h) st)
    end.

Definition call_Initialize : M (option error) :=
  via_libHandle CallInitialize (fun h => toError (mod_Initialize pk h)).

Definition call_GetSlotList (tokenPresent : bool) : M (list uint + error) :=
  via_libHandle (fun h => CallGetSlotList h tokenPresent)
                (fun h => toResult (mod_GetSlotList pk h tokenPresent)).

Definition call_GetTokenInfo (slot : uint) : M (TokenInfo + error) :=
  via_libHandle (fun h => CallGetTokenInfo h slot)
                (fun h => toResult (mod_GetTokenInfo pk h slot)).

Definition call_Login (s : SessionHandle) (userType : uint) (pin : string)
  : M (option error) :=
  via_libHandle (fun h => CallLogin h s userType pin)
                (fun h => toError (mod_Login pk h s userType pin)).

(** ** [findToken] *)

Fixpoint findToken (slots : list uint) (serial label : string)
  : M (uint * uint * option error) :=
  match slots with
  | [] => ret (0, 0, Some ErrTokenNotFound)
  | slot :: rest =>
      r <- call_GetTokenInfo slot ;;
      match r with
      | inr err => ret (0, 0, Some err)
      | inl tokenInfo =>
          if String.eqb (SerialNumber tokenInfo) serial
          then ret (slot, Flags tokenInfo, None)
          else if String.eqb (Label tokenInfo) label
          then ret (slot, Flags tokenInfo, None)
          else findToken rest serial label
      end
  end.

(** ** The session layer

    [setupSessions] and [withSession] are called by [Configure] but live in
    the package's session file.  What they do to one pool is factored out,
    so that the sequential runner used by [Configure] and the interleaving
    model of concurrent callers share it. *)

(** Modelled from the spec: the pool constructed for a slot by
    [setupSessions] (absent from the source at hand); §4.3: sessions are
    opened lazily, so a new pool has no idle session and none opened. *)
Definition newPool (max : Z) : Pool :=
  {| idle := []; opened := 0; ceiling := max |}.

Inductive acquisition : Type :=
| TakeIdle (s : SessionHandle) (p' : Pool)
| OpenNew
| Wait.

(** Modelled from the spec: the acquire rule of [withSession] (absent from
    the source at hand), §4.3: "if an idle session exists in the slot's
    pool, remove and return it immediately.  Otherwise, if the pool's
    opened-session count is below the ceiling, open a new read-write
    session ...  Otherwise, block". *)
Definition acquire_from (p : Pool) : acquisition :=
  match idle p with
  | s :: rest =>
      TakeIdle s {| idle := rest; opened := opened p; ceiling := ceiling p |}
  | [] => if (opened p <? ceiling p)%Z then OpenNew else Wait
  end.

(** Modelled from the spec: recording a newly opened session (§4.3, "open
    a new read-write session on the slot, record it, and return it"); the
    session goes straight to the caller, only the count changes. *)
Definition grown (p : Pool) : Pool :=
  {| idle := idle p; opened := (opened p + 1)%Z; ceiling := ceiling p |}.

(** Modelled from the spec: release (§4.3, "the session is returned to the
    idle set"). *)
Definition returned (s : SessionHandle) (p : Pool) : Pool :=
  {| idle := s :: idle p; opened := opened p; ceiling := ceiling p |}.

(** [libHandle = pkcs11.New(path)] *)
Definition assign_New (path : string) : M unit :=
  fun st =>
    Returns tt (set_libHandle (pkcs11_New pk path) (record_call (CallNew path) st)).

(** Modelled from the spec: [setupSessions(slot, max)] (absent from the
    source at hand) "constructs a SessionPool for that slot" (§4.1).  The
    source shows that it returns an error; the spec names no condition for
    it, so whether it does is left to the world. *)
Definition setupSessions (slot : uint) (max : Z) : M (option error) :=
  fun st =>
    match setup_failure pk slot max with
    | Some err => Returns (Some err) st
    | None =>
        Returns None
          (set_sessionPools (<[slot := newPool max]> (sessionPools st)) st)
    end.

(** The flags of a read-write session; PKCS#11 wants the serial bit too. *)
Definition rw_session : uint := N.lor CKF_SERIAL_SESSION CKF_RW_SESSION.

(** Modelled from the spec: session acquisition of [withSession] (absent
    from the source at hand), run by a single caller.  A failed open is
    reported to the caller and not counted (§4.3, failure semantics).
    With no other holder to release a session, a caller that has to wait
    waits forever; so does one that asks for a slot without a pool, about
    which the spec is silent. *)
Definition acquire (slot : uint) : M (SessionHandle + error) :=
  fun st =>
    match sessionPools st !! slot with
    | None => Blocks st
    | Some p =>
        match acquire_from p with
        | TakeIdle s p' =>
            Returns (inl s)
              (set_sessionPools (<[slot := p']> (sessionPools st)) st)
        | OpenNew =>
            match libHandle st with
            | None => Panics st
            | Some h =>
                let st1 := record_call (CallOpenSession h slot rw_session) st in
                match mod_OpenSession pk h slot rw_session with
                | inl s =>
                    Returns (inl s)
                      (set_sessionPools
                         (<[slot := grown p]> (sessionPools st1)) st1)
                | inr rv => Returns (inr (Pkcs11Error rv)) st1
                end
            end
        | Wait => Blocks st
        end
    end.

(** Modelled from the spec: the release half of [withSession]. *)
Definition release (slot : uint) (s : SessionHandle) (st : State) : State :=
  match sessionPools st !! slot with
  | None => st
  | Some p => set_sessionPools (<[slot := returned s p]> (sessionPools st)) st
  end.

(** Modelled from the spec: [withSession(slot, f)] (absent from the source
    at hand), §4.3: acquire, run [f] with the session, and return the
    session to the idle set whatever the outcome, a panic included; the
    result is [f]'s, or the error of a failed open. *)
Definition withSession (slot : uint) (f : SessionHandle -> M (option error))
  : M (option error) :=
  fun st =>
    match acquire slot st with
    | Returns (inl s) st1 =>
        match f s st1 with
        | Returns res st2 => Returns res (release slot s st2)
        | Blocks st2 => Blocks st2
        | Panics st2 => Panics (release slot s st2)
        end
    | Returns (inr err) st1 => Returns (Some err) st1
    | Blocks st1 => Blocks st1
    | Panics st1 => Panics st1
    end.

(** ** [Configure] *)

Definition login_required (flags : uint) : bool :=
  negb (N.land flags CKF_LOGIN_REQUIRED =? 0).

(** The function literal that [Configure] hands to [withSession]; [flags]
    and [config] are the variables it captures. *)
Definition loginIfRequired (flags : uint) (config : PKCS11Config)
    (session : SessionHandle) : M (option error) :=
  if login_required flags then
    err <- call_Login session CKU_USER (Pin config) ;;
    match err with
    | Some e =>
        Printf "Failed to login into PKCS#11 Token: %s" (ArgError e) ;;;
        ret err
    | None => ret err
    end
  else ret None.

Definition Configure (config : option PKCS11Config)
  : M (option Ctx * option error) :=
  match config with
  | None =>
      h <- get_libHandle ;;
      match h with
      | Some _ => ret (h, None)
      | None => ret (None, Some ErrNotConfigured)
      end
  | Some config =>
      h <- get_libHandle ;;
      match h with
      | Some _ => ret (h, None)
      | None =>
      assign_New (Path config) ;;;
      h <- get_libHandle ;;
      match h with
      | None =>
          Printf "Could not open PKCS#11 library: %s" (ArgString (Path config)) ;;;
          ret (None, Some ErrCannotOpenPKCS11)
      | Some _ =>
      err <- call_Initialize ;;
      match err with
      | Some e =>
          Printf "Failed to initialize PKCS#11 library: %s" (ArgError e) ;;;
          ret (None, err)
      | None =>
      r <- call_GetSlotList true ;;
      match r with
      | inr e =>
          Printf "Failed to list PKCS#11 Slots: %s" (ArgError e) ;;;
          ret (None, Some e)
      | inl slots =>
      found <- findToken slots (TokenSerial config) (TokenLabel config) ;;
      let '(slot, flags, err) := found in
      modify (set_defaultSlot slot) ;;;
      match err with
      | Some e =>
          Printf "Failed to find Token in any Slot: %s" (ArgError e) ;;;
          ret (None, err)
      | None =>
      slot <- get_defaultSlot ;;
      err <- setupSessions slot (MaxTokenSession config) ;;
      match err with
      | Some _ => ret (None, err)
      | None =>
      slot <- get_defaultSlot ;;
      err <- withSession slot (loginIfRequired flags config) ;;
      match err with
      | Some e =>
          Printf "Failed to open PKCS#11 Session: %s" (ArgError e) ;;;
          ret (None, err)
      | None =>
          h <- get_libHandle ;;
          ret (h, None)
      end end end end end end end
  end.

(** A run of successive [Configure] calls, collecting what each returns. *)
Fixpoint Configure_all (configs : list (option PKCS11Config))
  : M (list (option Ctx * option error)) :=
  match configs with
  | [] => ret []
  | config :: later =>
      r <- Configure config ;;
      rs <- Configure_all later ;;
      ret (r :: rs)
  end.

(** The state after [GetTokenInfo] has been called on each of [slots]. *)
Definition probed (h : Ctx) (slots : list uint) (st : State) : State :=
  fold_left (fun st slot => record_call (CallGetTokenInfo h slot) st) slots st.

(** The token in [slot] is readable and matches neither identifier. *)
Definition passed_over (h : Ctx) (serial label : string) (slot : uint) : Prop :=
  exists info, mod_GetTokenInfo pk h slot = inl info
    /\ SerialNumber info <> serial /\ Label info <> label.

End Crypto11.

(** ** Concurrent callers of [withSession]

    Modelled from the spec: §4.3 and §5 (the session file is absent from
    the source at hand).  Any number of callers run [withSession]
    concurrently; acquire, grow and release are atomic with respect to one
    another (§5), so an execution is an interleaving of the steps below.
    A caller that has to wait has no step until a session is idle again. *)

Inductive caller : Type :=
| Waiting (slot : uint)
| Running (slot : uint) (s : SessionHandle)
| Finished (result : option error).

Record System := {
  pools : gmap uint Pool;
  callers : list caller
}.

Definition holds (slot : uint) (c : caller) : option SessionHandle :=
  match c with
  | Running slot' s => if decide (slot' = slot) then Some s else None
  | _ => None
  end.

(** The sessions of [slot] that are in the hands of a running operation. *)
Definition in_use (slot : uint) (sys : System) : list SessionHandle :=
  omap (holds slot) (callers sys).

(** Sessions are never closed, so the open ones are those held and those
    idle in some pool. *)
Definition is_open (sys : System) (s : SessionHandle) : Prop :=
  (exists i slot, callers sys !! i = Some (Running slot s)) \/
  (exists slot p, pools sys !! slot = Some p /\ s ∈ idle p).

(** Modelled from the spec: the moves of a caller of [withSession] (absent
    from the source at hand), §4.3.  [step i sys sys']: caller [i] takes an
    idle session, has one opened below the ceiling, sees the open fail,
    returns its session when the operation ends, or comes back for another
    operation.  The module never hands out the handle of a session that is
    still open ([step_open]). *)
Inductive step (i : nat) (sys : System) : System -> Prop :=
| step_take slot p s p' :
    callers sys !! i = Some (Waiting slot) ->
    pools sys !! slot = Some p ->
    acquire_from p = TakeIdle s p' ->
    step i sys {| pools := <[slot := p']> (pools sys);
                  callers := <[i := Running slot s]> (callers sys) |}
| step_open slot p s :
    callers sys !! i = Some (Waiting slot) ->
    pools sys !! slot = Some p ->
    acquire_from p = OpenNew ->
    ~ is_open sys s ->
    step i sys {| pools := <[slot := grown p]> (pools sys);
                  callers := <[i := Running slot s]> (callers sys) |}
| step_open_failed slot p rv :
    callers sys !! i = Some (Waiting slot) ->
    pools sys !! slot = Some p ->
    acquire_from p = OpenNew ->
    step i sys {| pools := pools sys;
                  callers := <[i := Finished (Some (Pkcs11Error rv))]> (callers sys) |}
| step_release slot s p result :
    callers sys !! i = Some (Running slot s) ->
    pools sys !! slot = Some p ->
    step i sys {| pools := <[slot := returned s p]> (pools sys);
                  callers := <[i := Finished result]> (callers sys) |}
| step_again result slot :
    callers sys !! i = Some (Finished result) ->
    step i sys {| pools := pools sys;
                  callers := <[i := Waiting slot]> (callers sys) |}.

Definition steps : System -> System -> Prop :=
  rtc (fun sys sys' => exists i, step i sys sys').

(** Modelled from the spec: the system once the pools exist (§4.1, §4.3):
    every pool is as [setupSessions] made it and no operation has begun. *)
Definition at_start (sys : System) : Prop :=
  (forall slot p, pools sys !! slot = Some p -> p = newPool (ceiling p)) /\
  Forall (fun c => forall slot s, c <> Running slot s) (callers sys).

(** What the interleavings preserve. *)
Record pool_invariant (sys : System) : Prop := {
  inv_count : forall slot p, pools sys !! slot = Some p ->
    (Z.of_nat (length (in_use slot sys)) + Z.of_nat (length (idle p)) = opened p
     /\ opened p <= Z.max 0 (ceiling p))%Z;
  inv_holder : forall i j slot1 slot2 s,
    callers sys !! i = Some (Running slot1 s) ->
    callers sys !! j = Some (Running slot2 s) -> i = j;
  inv_idle_free : forall slot p s i slot',
    pools sys !! slot = Some p -> s ∈ idle p ->
    callers sys !! i <> Some (Running slot' s);
  inv_idle_nodup : forall slot p, pools sys !! slot = Some p -> NoDup (idle p);
  inv_idle_apart : forall slot1 slot2 p1 p2 s,
    slot1 <> slot2 -> pools sys !! slot1 = Some p1 ->
    pools sys !! slot2 = Some p2 -> s ∈ idle p1 -> s ∉ idle p2
}.

(** ** Sample modules and configurations *)

Definition token (label serial : string) (flags : uint) : TokenInfo :=
  {| Label := label; ManufacturerID := "SoftHSM project"; Model := "SoftHSM v2";
     SerialNumber := serial; Flags := flags |}.

(** Two loadable libraries.  "mod.so" (handle 1) is healthy; "broken.so"
    (handle 2) loads but fails to initialise.  Slot 1 holds a token
    labelled "L" that needs no login, slot 2 one with serial "S" that does,
    slot 4 a token with a blank label; any other slot is invalid.  The PIN
    is "1234". *)
Definition softhsm : World :=
  {| pkcs11_New := fun path =>
       if String.eqb path "mod.so" then Some 1
       else if String.eqb path "broken.so" then Some 2
       else None;
     mod_Initialize := fun h => if h =? 2 then Some 0x5 else None;
     mod_GetSlotList := fun _ _ => inl [1; 2];
     mod_GetTokenInfo := fun _ slot =>
       if slot =? 1 then inl (token "L" "X" 0x401)
       else if slot =? 2 then inl (token "Y" "S" 0x40D)
       else if slot =? 4 then inl (token "" "Z" 0x401)
       else inr 0x3;
     mod_OpenSession := fun _ slot _ => inl (100 + slot);
     mod_Login := fun _ _ _ pin =>
       if String.eqb pin "1234" then None else Some 0xA0;
     setup_failure := fun _ _ => None |}.

(** The steps of a first [Configure] that can fail once the library has
    loaded, and [softhsm] with one of them made to fail. *)
Inductive fault : Type :=
| AtInitialize
| AtSlotList
| AtFindToken
| AtSetupSessions
| AtOpenSession
| AtLogin.

Definition faulty (f : fault) : World :=
  {| pkcs11_New := pkcs11_New softhsm;
     mod_Initialize := fun h =>
       match f with AtInitialize => Some 0x5 | _ => mod_Initialize softhsm h end;
     mod_GetSlotList := fun h tokenPresent =>
       match f with
       | AtSlotList => inr 0x30
       | AtFindToken => inl [1; 3; 2]
       | _ => mod_GetSlotList softhsm h tokenPresent
       end;
     mod_GetTokenInfo := mod_GetTokenInfo softhsm;
     mod_OpenSession := fun h slot flags =>
       match f with
       | AtOpenSession => inr 0xE0
       | _ => mod_OpenSession softhsm h slot flags
       end;
     mod_Login := fun h s userType pin =>
       match f with AtLogin => Some 0xA0 | _ => mod_Login softhsm h s userType pin end;
     setup_failure := fun slot max =>
       match f with
       | AtSetupSessions => Some (Pkcs11Error 0x31)
       | _ => setup_failure softhsm slot max
       end |}.

Definition loaded : State := set_libHandle (Some 1) initial.

Definition by_serial (path pin : string) : PKCS11Config :=
  {| Path := path; TokenSerial := "S"; TokenLabel := "";
     Pin := pin; MaxTokenSession := 2 |}.

(** One pool with ceiling 1 on slot 2 and two callers, the first of which
    has opened session 102 while the second waits. *)
Definition two_callers : System :=
  {| pools := {[ 2 := newPool 1 ]}; callers := [Waiting 2; Waiting 2] |}.

Definition one_running : System :=
  {| pools := <[ 2 := grown (newPool 1) ]> {[ 2 := newPool 1 ]};
     callers := <[ 0%nat := Running 2 102 ]> [Waiting 2; Waiting 2] |}.

(** The tie-break as a reading of "serial first, label second" over the
    whole list: with every token readable, exactly one slot matching the
    serial and exactly one other slot matching the label, the former is
    returned wherever it stands. *)
Definition serial_match_always_selected : Prop :=
  forall (pk : World) (st : State) (h : Ctx) (slots : list uint)
         (serial label : string) (s1 s2 : uint) (i1 i2 : TokenInfo),
    libHandle st = Some h ->
    (forall s, s ∈ slots -> exists i, mod_GetTokenInfo pk h s = inl i) ->
    s1 ∈ slots -> s2 ∈ slots -> s1 <> s2 ->
    mod_GetTokenInfo pk h s1 = inl i1 -> SerialNumber i1 = serial ->
    mod_GetTokenInfo pk h s2 = inl i2 -> Label i2 = label ->
    (forall s i, s ∈ slots -> mod_GetTokenInfo pk h s = inl i ->
                 SerialNumber i = serial -> s = s1) ->
    (forall s i, s ∈ slots -> mod_GetTokenInfo pk h s = inl i ->
                 Label i = label -> s = s2) ->
    exists st', findToken pk slots serial label st = Returns (s1, Flags i1, None) st'.

(** ** Vocabulary for the statements about [Configure] *)

(** The globals as a call leaves them, however it ends. *)
Definition final_state {A} (o : outcome A) : State :=
  match o with
  | Returns _ st => st
  | Blocks st => st
  | Panics st => st
  end.

(** [m] never assigns the module handle. *)
Definition keeps_libHandle {A} (m : M A) : Prop :=
  forall st, libHandle (final_state (m st)) = libHandle st.

(** [m] never assigns the module handle and, when it reports no error, it
    returns the handle. *)
Definition answers_libHandle (m : M (option Ctx * option error)) : Prop :=
  forall st,
    libHandle (final_state (m st)) = libHandle st /\
    match m st with
    | Returns (r, None) st' => r = libHandle st'
    | _ => True
    end.

(** Every call into the module that [m] makes from [st] satisfies [Q]. *)
Definition makes_only {A} (Q : call -> Prop) (m : M A) (st : State) : Prop :=
  exists new, calls (final_state (m st)) = calls st ++ new /\ Forall Q new.

(** A [Login] call is as [Configure] with [config] makes it, as the user
    and with the configured PIN, and it follows a resolution that returned
    flags with the login-required bit. *)
Definition login_justified (pk : World) (config : PKCS11Config) (c : call) : Prop :=
  forall h s userType pin, c = CallLogin h s userType pin ->
    userType = CKU_USER /\ pin = Pin config /\
    exists slots st slot flags st',
      findToken pk slots (TokenSerial config) (TokenLabel config) st
        = Returns (slot, flags, None) st'
      /\ N.land flags CKF_LOGIN_REQUIRED <> 0.

(** The module calls of a first [Configure] that gets as far as borrowing
    a session: load, initialise, list the slots, read the tokens up to the
    chosen one, open a session. *)
Definition bootstrap_calls (config : PKCS11Config) (h : Ctx)
    (pre : list uint) (slot : uint) : list call :=
  [CallNew (Path config); CallInitialize h; CallGetSlotList h true]
  ++ map (CallGetTokenInfo h) (pre ++ [slot])
  ++ [CallOpenSession h slot rw_session].

(** ** [ConfigureFromFile] and [init]

    Both reach outside the package: the environment, the file system and
    the JSON decoder.  Their answers are the fields of [Host]; the files
    opened and closed are recorded beside the package state. *)

(** [*os.File] *)
Definition File := N.

(** Go's [error] as these two functions see it: the package's and the
    module's errors, and those of [os.Open] and of the decoder, the latter
    two by their [Error()] text. *)
Inductive host_error : Type :=
| PackageError (e : error)
| OsError (msg : string)
| JsonError (msg : string).

Record Host := {
  os_LookupEnv : string -> option string;
  os_Open : string -> File + string;
  json_Decode : File -> PKCS11Config + string
}.

Inductive host_event : Type :=
| Opened (path : string) (file : File)
| Decoded (file : File)
| Closed (file : File).

Record Process := {
  pkg : State;
  events : list host_event
}.

Definition set_pkg (st : State) (p : Process) : Process :=
  {| pkg := st; events := events p |}.

Definition record_event (e : host_event) (p : Process) : Process :=
  {| pkg := pkg p; events := events p ++ [e] |}.

(** What a panic carries: the runtime's nil dereference, or the error
    handed to [panic]. *)
Inductive panic_value : Type :=
| NilDereference
| PanicError (e : host_error).

Inductive result (A : Type) : Type :=
| Returned (a : A) (p : Process)
| Blocked (p : Process)
| Panicked (v : panic_value) (p : Process).
Arguments Returned {A} a p.
Arguments Blocked {A} p.
Arguments Panicked {A} v p.

Definition end_process {A} (r : result A) : Process :=
  match r with
  | Returned _ p => p
  | Blocked p => p
  | Panicked _ p => p
  end.

(** A package-level call made by the process; its [(ctx, err)] pair is
    seen at the wider error type. *)
Definition as_host (r : option Ctx * option error)
  : option Ctx * option host_error :=
  (fst r, PackageError <$> snd r).

Definition in_process (m : M (option Ctx * option error)) (p : Process)
  : result (option Ctx * option host_error) :=
  match m (pkg p) with
  | Returns r st => Returned (as_host r) (set_pkg st p)
  | Blocks st => Blocked (set_pkg st p)
  | Panics st => Panicked NilDereference (set_pkg st p)
  end.

(** [defer file.Close()]: runs when the function returns or panics. *)
Definition deferred_Close {A} (file : File) (r : result A) : result A :=
  match r with
  | Returned a p => Returned a (record_event (Closed file) p)
  | Blocked p => Blocked p
  | Panicked v p => Panicked v (record_event (Closed file) p)
  end.

Definition log_in_process (f : string) (a : logarg) (p : Process) : Process :=
  set_pkg (record_log {| fmt := f; arg := a |} (pkg p)) p.

Section FromFile.

Context (pk : World) (host : Host).

Definition ConfigureFromFile (configLocation : string) (p : Process)
  : result (option Ctx * option host_error) :=
  match os_Open host configLocation with
  | inr msg =>
      Returned (None, Some (OsError msg))
        (log_in_process "Could not open config file: %s"
           (ArgString configLocation) p)
  | inl file =>
      let p1 := record_event (Opened configLocation file) p in
      deferred_Close file
        (let p2 := record_event (Decoded file) p1 in
         match json_Decode host file with
         | inr msg =>
             Returned (None, Some (JsonError msg))
               (log_in_process "Could decode config file: %s" (ArgString msg) p2)
         | inl config => in_process (Configure pk (Some config)) p2
         end)
  end.

Definition init (p : Process) : result unit :=
  match os_LookupEnv host "CRYPTO11_CONFIG_PATH" with
  | Some configLocation =>
      match ConfigureFromFile configLocation p with
      | Returned (_, Some err) p' => Panicked (PanicError err) p'
      | Returned (_, None) p' => Returned tt p'
      | Blocked p' => Blocked p'
      | Panicked v p' => Panicked v p'
      end
  | None => Returned tt p
  end.

End FromFile.

(** A host with the variable set, one good configuration file and one
    truncated one. *)
Definition configured_host : Host :=
  {| os_LookupEnv := fun name =>
       if String.eqb name "CRYPTO11_CONFIG_PATH" then Some "/etc/crypto11.json"
       else None;
     os_Open := fun path =>
       if String.eqb path "/etc/crypto11.json" then inl 3
       else if String.eqb path "/etc/truncated.json" then inl 4
       else inr "no such file or directory";
     json_Decode := fun file =>
       if file =? 3 then inl (by_serial "mod.so" "1234")
       else inr "unexpected EOF" |}.

(** The same host with the variable naming the truncated file. *)
Definition misconfigured_host : Host :=
  {| os_LookupEnv := fun name =>
       if String.eqb name "CRYPTO11_CONFIG_PATH" then Some "/etc/truncated.json"
       else None;
     os_Open := os_Open configured_host;
     json_Decode := json_Decode configured_host |}.

Definition fresh_process : Process := {| pkg := initial; events := [] |}.

(** ** Vocabulary for the further properties *)

(** An error never comes with a context. *)
Definition nil_on_error (m : M (option Ctx * option error)) : Prop :=
  forall st,
    match m st with
    | Returns (Some _, Some _) _ => False
    | _ => True
    end.

(** From [st] to [st'] only the session pools and the record of module
    calls may differ. *)
Definition only_sessions_differ (st st' : State) : Prop :=
  libHandle st' = libHandle st /\ session st' = session st
  /\ defaultSlot st' = defaultSlot st /\ logged st' = logged st.

(** With the module handle set, [m] does not end in a panic. *)
Definition safe_when_loaded {A} (m : M A) : Prop :=
  forall st, is_Some (libHandle st) ->
    match m st with
    | Panics _ => False
    | _ => True
    end.

(** * Properties *)

(** ** The resolver *)

Section Resolver.

Context (pk : World).

Lemma probed_cons h slot slots st :
  probed h (slot :: slots) st
  = probed h slots (record_call (CallGetTokenInfo h slot) st).
Proof. reflexivity. Qed.

Lemma probed_snoc h slots slot st :
  probed h (slots ++ [slot]) st
  = record_call (CallGetTokenInfo h slot) (probed h slots st).
Proof. unfold probed. now rewrite fold_left_app. Qed.

Lemma probed_libHandle h slots st :
  libHandle (probed h slots st) = libHandle st.
Proof.
  revert st. induction slots as [|slot slots IH]; intros st; [reflexivity|].
  now rewrite probed_cons, IH.
Qed.

Lemma probed_calls h slots st :
  calls (probed h slots st) = calls st ++ map (CallGetTokenInfo h) slots.
Proof.
  revert st. induction slots as [|slot slots IH]; intros st.
  - cbn. now rewrite app_nil_r.
  - rewrite probed_cons, IH. cbn. now rewrite <- app_assoc.
Qed.

Lemma call_GetTokenInfo_loaded st h slot :
  libHandle st = Some h ->
  call_GetTokenInfo pk slot st
  = Returns (toResult (mod_GetTokenInfo pk h slot))
            (record_call (CallGetTokenInfo h slot) st).
Proof. intros Hh. unfold call_GetTokenInfo, via_libHandle. now rewrite Hh. Qed.

(** One turn of the loop, on a readable token. *)
Lemma findToken_cons st h slot rest serial label info :
  libHandle st = Some h ->
  mod_GetTokenInfo pk h slot = inl info ->
  findToken pk (slot :: rest) serial label st
  = let st' := record_call (CallGetTokenInfo h slot) st in
    if String.eqb (SerialNumber info) serial then Returns (slot, Flags info, None) st'
    else if String.eqb (Label info) label then Returns (slot, Flags info, None) st'
    else findToken pk rest serial label st'.
Proof.
  intros Hh Hinfo. cbn [findToken]. unfold bind.
  rewrite (call_GetTokenInfo_loaded _ _ _ Hh), Hinfo. cbn.
  destruct (String.eqb _ serial); [reflexivity|].
  destruct (String.eqb _ label); reflexivity.
Qed.

(** Slots that match neither identifier are read and passed over. *)
Lemma findToken_pass_over st h pre rest serial label :
  libHandle st = Some h ->
  Forall (passed_over pk h serial label) pre ->
  findToken pk (pre ++ rest) serial label st
  = findToken pk rest serial label (probed h pre st).
Proof.
  intros Hh Hpre. revert st Hh.
  induction Hpre as [|slot pre (info & Hinfo & Hser & Hlab) _ IH]; intros st Hh.
  - reflexivity.
  - rewrite <- app_comm_cons, (findToken_cons _ _ _ _ _ _ _ Hh Hinfo). cbn zeta.
    apply String.eqb_neq in Hser, Hlab. rewrite Hser, Hlab.
    now apply IH.
Qed.

(** The first slot that matches either identifier is returned, with its
    token's flags, after reading just the slots up to it. *)
Lemma findToken_first_match st h pre slot post serial label info :
  libHandle st = Some h ->
  Forall (passed_over pk h serial label) pre ->
  mod_GetTokenInfo pk h slot = inl info ->
  SerialNumber info = serial \/ Label info = label ->
  findToken pk (pre ++ slot :: post) serial label st
  = Returns (slot, Flags info, None) (probed h (pre ++ [slot]) st).
Proof.
  intros Hh Hpre Hinfo Hmatch.
  rewrite (findToken_pass_over _ _ _ _ _ _ Hh Hpre).
  rewrite (findToken_cons _ h _ _ _ _ info); [|now rewrite probed_libHandle|done].
  cbn zeta. rewrite probed_snoc.
  destruct (String.eqb_spec (SerialNumber info) serial) as [|Hser]; [reflexivity|].
  destruct (String.eqb_spec (Label info) label) as [|Hlab]; [reflexivity|].
  now destruct Hmatch.
Qed.

(** With nothing matching, every slot is read and the search gives up. *)
Lemma findToken_none st h slots serial label :
  libHandle st = Some h ->
  Forall (passed_over pk h serial label) slots ->
  findToken pk slots serial label st
  = Returns (0, 0, Some ErrTokenNotFound) (probed h slots st).
Proof.
  intros Hh Hall.
  rewrite <- (app_nil_r slots) at 1.
  now rewrite (findToken_pass_over _ _ _ _ _ _ Hh Hall).
Qed.

(** [ErrTokenNotFound] comes out only at the end of the list. *)
Lemma findToken_not_found_inv st h slots serial label a b st' :
  libHandle st = Some h ->
  findToken pk slots serial label st = Returns (a, b, Some ErrTokenNotFound) st' ->
  Forall (passed_over pk h serial label) slots.
Proof.
  intros Hh. revert st Hh. induction slots as [|slot rest IH]; intros st Hh Hrun.
  - constructor.
  - cbn [findToken] in Hrun. unfold bind in Hrun.
    rewrite (call_GetTokenInfo_loaded _ _ _ Hh) in Hrun.
    destruct (mod_GetTokenInfo pk h slot) as [info|rv] eqn:Hinfo; cbn in Hrun.
    + destruct (String.eqb_spec (SerialNumber info) serial) as [|Hser]; [discriminate|].
      destruct (String.eqb_spec (Label info) label) as [|Hlab]; [discriminate|].
      constructor; [now exists info|].
      eapply IH; [|exact Hrun]. exact Hh.
    + discriminate.
Qed.

End Resolver.

(** C1 as stated does not hold: the label match is returned when it is
    listed before the serial match.  With slots [1; 2], serial "S" (the
    token in slot 2) and label "L" (the token in slot 1), [findToken]
    answers slot 1. *)
Lemma label_match_listed_first : ~ serial_match_always_selected.
Proof.
  intros Hclaim.
  destruct (Hclaim softhsm loaded 1 [1; 2] "S" "L" 2 1
              (token "Y" "S" 0x40D) (token "L" "X" 0x401)) as [st' Hrun];
    try reflexivity.
  - intros s Hs. apply elem_of_cons in Hs as [->|Hs]; [eexists; reflexivity|].
    apply list_elem_of_singleton in Hs as ->. eexists; reflexivity.
  - apply elem_of_cons; right; apply elem_of_cons; now left.
  - apply elem_of_cons; now left.
  - discriminate.
  - intros s i Hs Hi Hser. apply elem_of_cons in Hs as [->|Hs].
    + cbn in Hi. injection Hi as <-. discriminate Hser.
    + now apply list_elem_of_singleton in Hs.
  - intros s i Hs Hi Hlab. apply elem_of_cons in Hs as [->|Hs]; [reflexivity|].
    apply list_elem_of_singleton in Hs as ->.
    cbn in Hi. injection Hi as <-. discriminate Hlab.
  - vm_compute in Hrun. discriminate Hrun.
Qed.

(** C1 (amended): in a slot list holding a slot [s1] whose token's serial
    number equals the requested serial and another slot [s2] whose token's
    label equals the requested label, [findToken] returns whichever of the
    two is listed first, the slots before it being readable and matching
    neither identifier: [s1] when it precedes [s2], and [s2] when it
    precedes [s1].  Only the slots up to the returned one are read. *)
Theorem findToken_tie_break (pk : World) (st : State) (h : Ctx)
    (serial label : string) (pre mid post : list uint) (s1 s2 : uint)
    (i1 i2 : TokenInfo) :
  libHandle st = Some h ->
  Forall (passed_over pk h serial label) pre ->
  mod_GetTokenInfo pk h s1 = inl i1 -> SerialNumber i1 = serial ->
  mod_GetTokenInfo pk h s2 = inl i2 -> Label i2 = label ->
  findToken pk (pre ++ s1 :: mid ++ s2 :: post) serial label st
    = Returns (s1, Flags i1, None) (probed h (pre ++ [s1]) st)
  /\ findToken pk (pre ++ s2 :: mid ++ s1 :: post) serial label st
    = Returns (s2, Flags i2, None) (probed h (pre ++ [s2]) st).
Proof.
  intros Hh Hpre H1 Hser H2 Hlab. split.
  - apply findToken_first_match; auto.
  - apply findToken_first_match; auto.
Qed.

Lemma findToken_tie_break_witness :
  findToken softhsm ([4] ++ 2 :: [] ++ 1 :: []) "S" "L" loaded
    = Returns (2, 0x40D, None) (probed 1 ([4] ++ [2]) loaded)
  /\ findToken softhsm ([4] ++ 1 :: [] ++ 2 :: []) "S" "L" loaded
    = Returns (1, 0x401, None) (probed 1 ([4] ++ [1]) loaded).
Proof.
  apply (findToken_tie_break softhsm loaded 1 "S" "L" [4] [] [] 2 1
           (token "Y" "S" 0x40D) (token "L" "X" 0x401)).
  - reflexivity.
  - repeat constructor. exists (token "" "Z" 0x401).
    split; [reflexivity|split; discriminate].
  - reflexivity.
  - reflexivity.
  - reflexivity.
  - reflexivity.
Defined.

(** C6: when the token of every listed slot is readable and matches neither
    the requested serial number nor the requested label, [findToken]
    returns [(0, 0, ErrTokenNotFound)], having read every slot; on the
    empty list it does so without touching the module. *)
Theorem findToken_no_match (pk : World) (st : State) (h : Ctx)
    (slots : list uint) (serial label : string) :
  libHandle st = Some h ->
  Forall (passed_over pk h serial label) slots ->
  findToken pk slots serial label st
    = Returns (0, 0, Some ErrTokenNotFound) (probed h slots st)
  /\ forall st0, findToken pk [] serial label st0
                 = Returns (0, 0, Some ErrTokenNotFound) st0.
Proof.
  intros Hh Hall. split.
  - now apply findToken_none.
  - reflexivity.
Qed.

Lemma findToken_no_match_witness :
  findToken softhsm [1; 2; 4] "does-not-exist" "nor-this" loaded
    = Returns (0, 0, Some ErrTokenNotFound) (probed 1 [1; 2; 4] loaded)
  /\ forall st0, findToken softhsm [] "does-not-exist" "nor-this" st0
                 = Returns (0, 0, Some ErrTokenNotFound) st0.
Proof.
  apply (findToken_no_match softhsm loaded 1 [1; 2; 4]).
  - reflexivity.
  - repeat constructor;
      eexists; (split; [reflexivity|split; discriminate]).
Defined.

(** C7: when the search reaches a slot whose token metadata cannot be read,
    [findToken] returns [(0, 0, err)] with the module's error at once: the
    calls it has made are the reads of the slots up to the failing one and
    nothing later in the list is read, whatever it holds. *)
Theorem findToken_read_failure (pk : World) (st : State) (h : Ctx)
    (pre : list uint) (slot : uint) (post : list uint)
    (serial label : string) (rv : N) :
  libHandle st = Some h ->
  Forall (passed_over pk h serial label) pre ->
  mod_GetTokenInfo pk h slot = inr rv ->
  findToken pk (pre ++ slot :: post) serial label st
    = Returns (0, 0, Some (Pkcs11Error rv)) (probed h (pre ++ [slot]) st)
  /\ calls (probed h (pre ++ [slot]) st)
     = calls st ++ map (CallGetTokenInfo h) (pre ++ [slot]).
Proof.
  intros Hh Hpre Hfail. split; [|apply probed_calls].
  rewrite (findToken_pass_over _ _ _ _ _ _ _ Hh Hpre).
  cbn [findToken]. unfold bind.
  rewrite (call_GetTokenInfo_loaded pk _ h); [|now rewrite probed_libHandle].
  rewrite Hfail. cbn. now rewrite probed_snoc.
Qed.

Lemma findToken_read_failure_witness :
  findToken softhsm ([1] ++ 3 :: [2]) "S" "nor-this" loaded
    = Returns (0, 0, Some (Pkcs11Error 0x3)) (probed 1 ([1] ++ [3]) loaded)
  /\ calls (probed 1 ([1] ++ [3]) loaded)
     = calls loaded ++ map (CallGetTokenInfo 1) ([1] ++ [3]).
Proof.
  apply (findToken_read_failure softhsm loaded 1 [1] 3 [2] "S" "nor-this" 0x3).
  - reflexivity.
  - repeat constructor.
    eexists; (split; [reflexivity|split; discriminate]).
  - reflexivity.
Defined.

(** C10: with both identifiers empty [findToken] runs the same search: it
    returns the first slot whose token has an empty serial number or an
    empty label, and it ends in [ErrTokenNotFound] exactly when every
    listed token is readable with a non-empty serial number and a
    non-empty label. *)
Theorem findToken_blank_identifiers (pk : World) (st : State) (h : Ctx)
    (pre : list uint) (slot : uint) (post : list uint) (info : TokenInfo) :
  libHandle st = Some h ->
  Forall (passed_over pk h "" "") pre ->
  mod_GetTokenInfo pk h slot = inl info ->
  SerialNumber info = "" \/ Label info = "" ->
  findToken pk (pre ++ slot :: post) "" "" st
    = Returns (slot, Flags info, None) (probed h (pre ++ [slot]) st)
  /\ forall slots,
       (exists a b st',
           findToken pk slots "" "" st = Returns (a, b, Some ErrTokenNotFound) st')
       <-> Forall (passed_over pk h "" "") slots.
Proof.
  intros Hh Hpre Hinfo Hblank. split.
  - now apply findToken_first_match.
  - intros slots. split.
    + intros (a & b & st' & Hrun). eapply findToken_not_found_inv; eauto.
    + intros Hall. eexists _, _, _. apply (findToken_none pk st h); assumption.
Qed.

Lemma findToken_blank_identifiers_witness :
  findToken softhsm ([1; 2] ++ 4 :: [1]) "" "" loaded
    = Returns (4, 0x401, None) (probed 1 ([1; 2] ++ [4]) loaded)
  /\ forall slots,
       (exists a b st',
           findToken softhsm slots "" "" loaded
           = Returns (a, b, Some ErrTokenNotFound) st')
       <-> Forall (passed_over softhsm 1 "" "") slots.
Proof.
  apply (findToken_blank_identifiers softhsm loaded 1 [1; 2] 4 [1]
           (token "" "Z" 0x401)).
  - reflexivity.
  - repeat constructor;
      eexists; (split; [reflexivity|split; discriminate]).
  - reflexivity.
  - right. reflexivity.
Defined.

(** ** One-time configuration *)

Section Bootstrap.

Context (pk : World).

Lemma bind_Returns {A B} (m : M A) (k : A -> M B) st a st' :
  m st = Returns a st' -> bind m k st = k a st'.
Proof. intros Hm. unfold bind. now rewrite Hm. Qed.

Lemma keeps_ret {A} (a : A) : keeps_libHandle (ret a).
Proof. intros st. reflexivity. Qed.

Lemma keeps_bind {A B} (m : M A) (k : A -> M B) :
  keeps_libHandle m -> (forall a, keeps_libHandle (k a)) ->
  keeps_libHandle (bind m k).
Proof.
  intros Hm Hk st. unfold bind. specialize (Hm st).
  destruct (m st) as [a st'| |]; cbn in *; try assumption.
  now rewrite Hk.
Qed.

Lemma keeps_via_libHandle {A} (c : Ctx -> call) (answer : Ctx -> A) :
  keeps_libHandle (via_libHandle c answer).
Proof.
  intros st. unfold via_libHandle.
  destruct (libHandle st) eqn:Hh; cbn; congruence.
Qed.

Lemma keeps_Printf f a : keeps_libHandle (Printf f a).
Proof. intros st. reflexivity. Qed.

Lemma keeps_get_defaultSlot : keeps_libHandle get_defaultSlot.
Proof. intros st. reflexivity. Qed.

Lemma keeps_set_defaultSlot slot : keeps_libHandle (modify (set_defaultSlot slot)).
Proof. intros st. reflexivity. Qed.

Lemma keeps_findToken slots serial label :
  keeps_libHandle (findToken pk slots serial label).
Proof.
  induction slots as [|slot rest IH]; cbn [findToken].
  - apply keeps_ret.
  - apply keeps_bind; [apply keeps_via_libHandle|].
    intros [info|err]; [|apply keeps_ret].
    destruct (String.eqb _ serial); [apply keeps_ret|].
    destruct (String.eqb _ label); [apply keeps_ret|apply IH].
Qed.

Lemma keeps_setupSessions slot max : keeps_libHandle (setupSessions pk slot max).
Proof.
  intros st. unfold setupSessions. now destruct (setup_failure pk slot max).
Qed.

Lemma release_libHandle slot s st : libHandle (release slot s st) = libHandle st.
Proof. unfold release. now destruct (sessionPools st !! slot). Qed.

Lemma keeps_acquire slot : keeps_libHandle (acquire pk slot).
Proof.
  intros st. unfold acquire.
  destruct (sessionPools st !! slot) as [p|]; [|reflexivity].
  destruct (acquire_from p); try reflexivity.
  destruct (libHandle st) as [h|] eqn:Hh; [|now cbn].
  destruct (mod_OpenSession pk h slot rw_session); cbn; now rewrite Hh.
Qed.

Lemma keeps_withSession slot f :
  (forall s, keeps_libHandle (f s)) -> keeps_libHandle (withSession pk slot f).
Proof.
  intros Hf st. unfold withSession.
  pose proof (keeps_acquire slot st) as Hacq.
  destruct (acquire pk slot st) as [[s|err] st1|st1|st1]; cbn in *; try assumption.
  specialize (Hf s st1).
  destruct (f s st1) as [res st2|st2|st2]; cbn in *;
    rewrite ?release_libHandle; congruence.
Qed.

Lemma keeps_loginIfRequired flags config s :
  keeps_libHandle (loginIfRequired pk flags config s).
Proof.
  unfold loginIfRequired. destruct (login_required flags); [|apply keeps_ret].
  apply keeps_bind; [apply keeps_via_libHandle|].
  intros [e|]; [|apply keeps_ret].
  apply keeps_bind; [apply keeps_Printf|intros _; apply keeps_ret].
Qed.

Lemma answers_bind {A} (m : M A) (k : A -> M (option Ctx * option error)) :
  keeps_libHandle m -> (forall a, answers_libHandle (k a)) ->
  answers_libHandle (bind m k).
Proof.
  intros Hm Hk st. unfold bind. specialize (Hm st).
  destruct (m st) as [a st'| |]; cbn in *; try (split; [assumption|exact I]).
  destruct (Hk a st') as [Hkeep Hans]. split; [congruence|exact Hans].
Qed.

Lemma answers_error (r : option Ctx) (e : error) :
  answers_libHandle (ret (r, Some e)).
Proof. intros st. split; [reflexivity|exact I]. Qed.

Lemma answers_handle :
  answers_libHandle (h <- get_libHandle ;; ret (h, None)).
Proof. intros st. split; reflexivity. Qed.

(** Where the handle is already set, [Configure] returns it and does
    nothing else, whatever it is given. *)
Lemma Configure_loaded config st h :
  libHandle st = Some h -> Configure pk config st = Returns (Some h, None) st.
Proof.
  intros Hh. destruct config as [c|]; unfold Configure, bind, get_libHandle;
    now rewrite Hh.
Qed.

Lemma Configure_nil_unloaded st :
  libHandle st = None ->
  Configure pk None st = Returns (None, Some ErrNotConfigured) st.
Proof. intros Hh. unfold Configure, bind, get_libHandle. now rewrite Hh. Qed.

(** A first call stores whatever [pkcs11.New] gave and never takes it
    back; a call that reports no error returns that handle, which is not
    nil. *)
Lemma Configure_first c st :
  libHandle st = None ->
  libHandle (final_state (Configure pk (Some c) st)) = pkcs11_New pk (Path c) /\
  match Configure pk (Some c) st with
  | Returns (r, None) st' => exists h, r = Some h /\ libHandle st' = Some h
  | _ => True
  end.
Proof.
  intros Hh. unfold Configure.
  rewrite (bind_Returns get_libHandle _ st (libHandle st) st eq_refl), Hh.
  rewrite (bind_Returns (assign_New pk (Path c)) _ st tt _ eq_refl).
  set (st1 := set_libHandle _ _).
  rewrite (bind_Returns get_libHandle _ st1 (libHandle st1) st1 eq_refl).
  change (libHandle st1) with (pkcs11_New pk (Path c)).
  destruct (pkcs11_New pk (Path c)) as [h|] eqn:Hnew.
  - match goal with |- context [final_state (?m st1)] =>
      assert (answers_libHandle m) as Hm end.
    { apply answers_bind; [apply keeps_via_libHandle|].
      intros [e|].
      { apply answers_bind; [apply keeps_Printf|intros _; apply answers_error]. }
      apply answers_bind; [apply keeps_via_libHandle|].
      intros [slots|e].
      2:{ apply answers_bind; [apply keeps_Printf|intros _; apply answers_error]. }
      apply answers_bind; [apply keeps_findToken|].
      intros [[slot flags] err].
      apply answers_bind; [apply keeps_set_defaultSlot|intros _].
      destruct err as [e|].
      { apply answers_bind; [apply keeps_Printf|intros _; apply answers_error]. }
      apply answers_bind; [apply keeps_get_defaultSlot|intros slot'].
      apply answers_bind; [apply keeps_setupSessions|].
      intros [e|]; [apply answers_error|].
      apply answers_bind; [apply keeps_get_defaultSlot|intros slot''].
      apply answers_bind;
        [apply keeps_withSession; intros s; apply keeps_loginIfRequired|].
      intros [e|]; [|apply answers_handle].
      apply answers_bind; [apply keeps_Printf|intros _; apply answers_error]. }
    destruct (Hm st1) as [Hkeep Hans]. split; [exact Hkeep|].
    match goal with |- match ?o with _ => _ end => destruct o as [[r [e|]] st'| |] end;
      try exact I.
    cbn in Hkeep. exists h. split; congruence.
  - split; [reflexivity|exact I].
Qed.

(** After a call that reported no error the handle is set, and it is the
    one that was returned. *)
Lemma Configure_success config st r st1 :
  Configure pk config st = Returns (r, None) st1 ->
  exists h, r = Some h /\ libHandle st1 = Some h.
Proof.
  intros Hrun. destruct (libHandle st) as [h|] eqn:Hh.
  - rewrite (Configure_loaded config st h Hh) in Hrun.
    injection Hrun as <- <-. now exists h.
  - destruct config as [c|].
    + destruct (Configure_first c st Hh) as [_ Hans]. now rewrite Hrun in Hans.
    + rewrite (Configure_nil_unloaded st Hh) in Hrun. discriminate.
Qed.

(** Once the handle is set, any run of further calls returns it each time
    and changes nothing. *)
Lemma Configure_all_loaded later st h :
  libHandle st = Some h ->
  Configure_all pk later st = Returns (map (fun _ => (Some h, None)) later) st.
Proof.
  intros Hh. induction later as [|config later IH]; [reflexivity|].
  cbn [Configure_all map].
  rewrite (bind_Returns _ _ _ _ _ (Configure_loaded config st h Hh)).
  now rewrite (bind_Returns _ _ _ _ _ IH).
Qed.

(** Each step after the load can be the one that fails, and each time the
    handle is left behind. *)
Example Configure_fails_at_each_step (f : fault) :
  exists e st1,
    Configure (faulty f) (Some (by_serial "mod.so" "1234")) initial
      = Returns (None, Some e) st1
    /\ libHandle st1 = Some 1
    /\ Configure (faulty f) None st1 = Returns (Some 1, None) st1.
Proof.
  destruct f; eexists _, _; (split; [vm_compute; reflexivity|]);
    split; reflexivity.
Qed.

End Bootstrap.

(** C4: when a [Configure] call reports no error, the next call, whatever
    configuration it is given (another path, or nil), returns the same
    non-nil context with a nil error and leaves every global as it was:
    module handle, default slot, session pools, and no call reaches the
    module. *)
Theorem Configure_first_writer_wins (pk : World)
    (first second : option PKCS11Config) (st st1 : State) (r : option Ctx) :
  Configure pk first st = Returns (r, None) st1 ->
  exists h, r = Some h /\ Configure pk second st1 = Returns (Some h, None) st1.
Proof.
  intros Hrun. destruct (Configure_success pk first st r st1 Hrun) as (h & -> & Hh).
  exists h. split; [reflexivity|]. now apply Configure_loaded.
Qed.

Lemma Configure_first_writer_wins_witness :
  exists h, Some 1 = Some h /\
    Configure softhsm (Some (by_serial "other.so" "9999"))
      (final_state (Configure softhsm (Some (by_serial "mod.so" "1234")) initial))
    = Returns (Some h, None)
        (final_state (Configure softhsm (Some (by_serial "mod.so" "1234")) initial)).
Proof.
  apply (Configure_first_writer_wins softhsm
           (Some (by_serial "mod.so" "1234"))
           (Some (by_serial "other.so" "9999")) initial).
  vm_compute. reflexivity.
Defined.

(** C3: when the first [Configure] call loads the library and then fails,
    at whichever later step, the module handle stays set, and every
    [Configure] call after it, with any configuration or with nil, returns
    that handle with a nil error and changes nothing. *)
Theorem Configure_failure_keeps_handle (pk : World) (c : PKCS11Config)
    (st st1 : State) (h : Ctx) (r : option Ctx) (e : error)
    (later : list (option PKCS11Config)) :
  libHandle st = None ->
  pkcs11_New pk (Path c) = Some h ->
  Configure pk (Some c) st = Returns (r, Some e) st1 ->
  libHandle st1 = Some h /\
  Configure_all pk later st1
    = Returns (map (fun _ => (Some h, None)) later) st1.
Proof.
  intros Hh Hnew Hrun.
  destruct (Configure_first pk c st Hh) as [Hset _].
  rewrite Hrun, Hnew in Hset. cbn in Hset.
  split; [exact Hset|]. now apply Configure_all_loaded.
Qed.

Lemma Configure_failure_keeps_handle_witness :
  let st1 := final_state (Configure softhsm (Some (by_serial "mod.so" "0000")) initial) in
  libHandle st1 = Some 1 /\
  Configure_all softhsm [None; Some (by_serial "other.so" "1234"); None] st1
    = Returns [(Some 1, None); (Some 1, None); (Some 1, None)] st1.
Proof.
  apply (Configure_failure_keeps_handle softhsm (by_serial "mod.so" "0000")
           initial _ 1 None (Pkcs11Error 0xA0)
           [None; Some (by_serial "other.so" "1234"); None]).
  - reflexivity.
  - reflexivity.
  - vm_compute. reflexivity.
Defined.

(** C2: a rejected PIN makes the first [Configure] return the module's
    error, yet the handle stored before the login is still there, so
    [Configure(nil)] then returns it with a nil error, where on a library
    that was never configured it returns [ErrNotConfigured]. *)
Theorem Configure_nil_after_failed_login :
  exists st1,
    Configure softhsm (Some (by_serial "mod.so" "0000")) initial
      = Returns (None, Some (Pkcs11Error 0xA0)) st1
    /\ Configure softhsm None st1 = Returns (Some 1, None) st1
    /\ Configure softhsm None initial = Returns (None, Some ErrNotConfigured) initial.
Proof.
  eexists. split; [vm_compute; reflexivity|]. split; reflexivity.
Qed.

(** C8: no configuration has succeeded when the library fails to
    initialise, yet [Configure(nil)] afterwards returns the stored handle
    with a nil error instead of [ErrNotConfigured]. *)
Theorem Configure_nil_after_failed_initialize :
  exists st1,
    Configure softhsm (Some (by_serial "broken.so" "1234")) initial
      = Returns (None, Some (Pkcs11Error 0x5)) st1
    /\ Configure softhsm None st1 = Returns (Some 2, None) st1.
Proof.
  eexists. split; [vm_compute; reflexivity|reflexivity].
Qed.

(** ** Login during the first configuration *)

Section Login.

Context (pk : World).

Lemma release_calls slot s st : calls (release slot s st) = calls st.
Proof. unfold release. now destruct (sessionPools st !! slot). Qed.

(** A caller that finds the pool empty and below its ceiling has a session
    opened for it, runs with it and hands it back. *)
Lemma withSession_open slot f st h p s :
  sessionPools st !! slot = Some p ->
  idle p = [] -> (opened p < ceiling p)%Z ->
  libHandle st = Some h ->
  mod_OpenSession pk h slot rw_session = inl s ->
  withSession pk slot f st
  = let st1 := record_call (CallOpenSession h slot rw_session) st in
    match f s (set_sessionPools (<[slot := grown p]> (sessionPools st1)) st1) with
    | Returns res st2 => Returns res (release slot s st2)
    | Blocks st2 => Blocks st2
    | Panics st2 => Panics (release slot s st2)
    end.
Proof.
  intros Hp Hidle Hroom Hh Hopen. unfold withSession, acquire, acquire_from.
  rewrite Hp, Hidle. apply Z.ltb_lt in Hroom. rewrite Hroom, Hh, Hopen.
  reflexivity.
Qed.

Lemma loginIfRequired_clear flags config s st :
  N.land flags CKF_LOGIN_REQUIRED = 0 ->
  loginIfRequired pk flags config s st = Returns None st.
Proof.
  intros Hbit. unfold loginIfRequired, login_required. now rewrite Hbit.
Qed.

Lemma loginIfRequired_set flags config s st h :
  N.land flags CKF_LOGIN_REQUIRED <> 0 ->
  libHandle st = Some h ->
  exists st',
    loginIfRequired pk flags config s st
      = Returns (toError (mod_Login pk h s CKU_USER (Pin config))) st'
    /\ calls st' = calls st ++ [CallLogin h s CKU_USER (Pin config)]
    /\ libHandle st' = libHandle st.
Proof.
  intros Hbit Hh. unfold loginIfRequired, login_required.
  apply N.eqb_neq in Hbit. rewrite Hbit. cbn [negb].
  unfold bind, call_Login, via_libHandle. rewrite Hh.
  destruct (mod_Login pk h s CKU_USER (Pin config)) as [rv|]; cbn;
    eexists; (split; [reflexivity|]); cbn; auto.
Qed.

(** *** Which calls are made *)

Lemma makes_ret {A} Q (a : A) st : makes_only Q (ret a) st.
Proof. exists []. split; [now rewrite app_nil_r|constructor]. Qed.

Lemma makes_silent {A} Q (m : M A) st :
  calls (final_state (m st)) = calls st -> makes_only Q m st.
Proof. intros Hsame. exists []. split; [now rewrite app_nil_r|constructor]. Qed.

Lemma makes_bind {A B} Q (m : M A) (k : A -> M B) st :
  makes_only Q m st ->
  (forall a st', m st = Returns a st' -> makes_only Q (k a) st') ->
  makes_only Q (bind m k) st.
Proof.
  intros (new1 & Hcalls1 & HQ1) Hk. unfold makes_only, bind.
  destruct (m st) as [a st'| |] eqn:Hm; cbn in *; [|now exists new1..].
  destruct (Hk a st' eq_refl) as (new2 & Hcalls2 & HQ2).
  exists (new1 ++ new2). split.
  - now rewrite Hcalls2, Hcalls1, app_assoc.
  - now apply Forall_app.
Qed.

Lemma makes_via_libHandle {A} Q (c : Ctx -> call) (answer : Ctx -> A) st :
  (forall h, Q (c h)) -> makes_only Q (via_libHandle c answer) st.
Proof.
  intros HQ. unfold makes_only, via_libHandle.
  destruct (libHandle st) as [h|]; cbn.
  - exists [c h]. split; [reflexivity|]. constructor; [apply HQ|constructor].
  - exists []. split; [now rewrite app_nil_r|constructor].
Qed.

Lemma makes_findToken Q slots serial label st :
  (forall h slot, Q (CallGetTokenInfo h slot)) ->
  makes_only Q (findToken pk slots serial label) st.
Proof.
  intros HQ. revert st. induction slots as [|slot rest IH]; intros st.
  - apply makes_ret.
  - cbn [findToken]. apply makes_bind.
    + apply makes_via_libHandle. intros h. apply HQ.
    + intros [info|err] st' _; [|apply makes_ret].
      destruct (String.eqb _ serial); [apply makes_ret|].
      destruct (String.eqb _ label); [apply makes_ret|apply IH].
Qed.

Lemma makes_acquire Q slot st :
  (forall h, Q (CallOpenSession h slot rw_session)) ->
  makes_only Q (acquire pk slot) st.
Proof.
  intros HQ. unfold makes_only, acquire.
  assert (Hnone : forall st' : State, calls st' = calls st ->
            exists new, calls st' = calls st ++ new /\ Forall Q new).
  { intros st' Hsame. exists []. split; [now rewrite app_nil_r|constructor]. }
  destruct (sessionPools st !! slot) as [p|]; [|now apply Hnone].
  destruct (acquire_from p); try now apply Hnone.
  destruct (libHandle st) as [h|]; [|now apply Hnone].
  exists [CallOpenSession h slot rw_session].
  split; [|constructor; [apply HQ|constructor]].
  now destruct (mod_OpenSession pk h slot rw_session).
Qed.

Lemma makes_withSession Q slot f st :
  (forall h, Q (CallOpenSession h slot rw_session)) ->
  (forall s st', makes_only Q (f s) st') ->
  makes_only Q (withSession pk slot f) st.
Proof.
  intros HQ Hf. destruct (makes_acquire Q slot st HQ) as (new1 & Hcalls1 & HQ1).
  unfold makes_only, withSession.
  destruct (acquire pk slot st) as [[s|err] st1|st1|st1]; cbn in *;
    [|now exists new1..].
  destruct (Hf s st1) as (new2 & Hcalls2 & HQ2).
  exists (new1 ++ new2). split; [|now apply Forall_app].
  rewrite app_assoc, <- Hcalls1, <- Hcalls2.
  destruct (f s st1) as [res st2|st2|st2]; cbn; now rewrite ?release_calls.
Qed.

Lemma makes_loginIfRequired Q flags config s st :
  (N.land flags CKF_LOGIN_REQUIRED <> 0 ->
   forall h, Q (CallLogin h s CKU_USER (Pin config))) ->
  makes_only Q (loginIfRequired pk flags config s) st.
Proof.
  intros HQ. unfold loginIfRequired, login_required.
  destruct (N.eqb_spec (N.land flags CKF_LOGIN_REQUIRED) 0) as [|Hset]; cbn [negb].
  - apply makes_ret.
  - apply makes_bind.
    + apply makes_via_libHandle. now apply HQ.
    + intros [e|] st' _; [|apply makes_ret].
      apply makes_bind; [now apply makes_silent|intros; apply makes_ret].
Qed.

(** Whatever becomes of a [Configure] call, a login is among its calls
    only as described by [login_justified]. *)
Lemma Configure_logins config st :
  makes_only (login_justified pk config) (Configure pk (Some config)) st.
Proof.
  assert (Hother : forall c, (forall h s u p, c <> CallLogin h s u p) ->
                             login_justified pk config c).
  { intros c Hc h s u p ->. now destruct (Hc h s u p). }
  unfold Configure.
  apply makes_bind; [now apply makes_silent|intros [h|] st0 _; [apply makes_ret|]].
  apply makes_bind.
  { exists [CallNew (Path config)]. split; [reflexivity|].
    constructor; [now apply Hother|constructor]. }
  intros _ st1 _.
  apply makes_bind; [now apply makes_silent|intros [h|] st1' _].
  2:{ apply makes_bind; [now apply makes_silent|intros; apply makes_ret]. }
  apply makes_bind; [apply makes_via_libHandle; intros; now apply Hother|].
  intros [e|] st2 _.
  { apply makes_bind; [now apply makes_silent|intros; apply makes_ret]. }
  apply makes_bind; [apply makes_via_libHandle; intros; now apply Hother|].
  intros [slots|e] st3 _.
  2:{ apply makes_bind; [now apply makes_silent|intros; apply makes_ret]. }
  apply makes_bind; [apply makes_findToken; intros; now apply Hother|].
  intros [[slot flags] err] st4 Hfound.
  apply makes_bind; [now apply makes_silent|intros _ st5 _].
  destruct err as [e|].
  { apply makes_bind; [now apply makes_silent|intros; apply makes_ret]. }
  apply makes_bind; [now apply makes_silent|intros slot' st6 _].
  apply makes_bind.
  { apply makes_silent. unfold setupSessions.
    now destruct (setup_failure pk slot' (MaxTokenSession config)). }
  intros [e|] st7 _; [apply makes_ret|].
  apply makes_bind; [now apply makes_silent|intros slot'' st8 _].
  apply makes_bind.
  { apply makes_withSession; [intros; now apply Hother|].
    intros s st9. apply makes_loginIfRequired.
    intros Hset h0 h1 s1 u p [= <- <- <- <-].
    split; [reflexivity|]. split; [reflexivity|].
    now exists slots, st3, slot, flags, st4. }
  intros [e|] st9 _.
  { apply makes_bind; [now apply makes_silent|intros; apply makes_ret]. }
  apply makes_bind; [now apply makes_silent|intros; apply makes_ret].
Qed.

End Login.

(** A first call that resolves a token and borrows a session for it. *)
Lemma Configure_reaches_login (pk : World) (st : State)
    (c : PKCS11Config) (h : Ctx) (pre : list uint) (slot : uint)
    (post : list uint) (info : TokenInfo) (s : SessionHandle) :
  libHandle st = None ->
  pkcs11_New pk (Path c) = Some h ->
  mod_Initialize pk h = None ->
  mod_GetSlotList pk h true = inl (pre ++ slot :: post) ->
  Forall (passed_over pk h (TokenSerial c) (TokenLabel c)) pre ->
  mod_GetTokenInfo pk h slot = inl info ->
  SerialNumber info = TokenSerial c \/ Label info = TokenLabel c ->
  setup_failure pk slot (MaxTokenSession c) = None ->
  (0 < MaxTokenSession c)%Z ->
  mod_OpenSession pk h slot rw_session = inl s ->
  exists r st' logins,
    Configure pk (Some c) st = Returns r st'
    /\ calls st' = calls st ++ bootstrap_calls c h pre slot ++ logins
    /\ (N.land (Flags info) CKF_LOGIN_REQUIRED <> 0 ->
        logins = [CallLogin h s CKU_USER (Pin c)]
        /\ r = match mod_Login pk h s CKU_USER (Pin c) with
               | None => (Some h, None)
               | Some rv => (None, Some (Pkcs11Error rv))
               end)
    /\ (N.land (Flags info) CKF_LOGIN_REQUIRED = 0 ->
        logins = [] /\ r = (Some h, None)
        /\ forall s0 st0, loginIfRequired pk (Flags info) c s0 st0 = Returns None st0).
Proof.
  intros Hh Hnew Hinit Hslots Hpre Hinfo Hmatch Hsetup Hmax Hopen.
  unfold Configure.
  rewrite (bind_Returns get_libHandle _ st (libHandle st) st eq_refl), Hh.
  rewrite (bind_Returns (assign_New pk (Path c)) _ st tt _ eq_refl).
  set (st1 := set_libHandle _ _).
  rewrite (bind_Returns get_libHandle _ st1 (libHandle st1) st1 eq_refl).
  change (libHandle st1) with (pkcs11_New pk (Path c)). rewrite Hnew.
  assert (Hh1 : libHandle st1 = Some h) by exact Hnew.
  rewrite (bind_Returns (call_Initialize pk) _ st1 None (record_call (CallInitialize h) st1)).
  2:{ unfold call_Initialize, via_libHandle. now rewrite Hh1, Hinit. }
  set (st2 := record_call (CallInitialize h) st1).
  rewrite (bind_Returns (call_GetSlotList pk true) _ st2 (inl (pre ++ slot :: post))
             (record_call (CallGetSlotList h true) st2)).
  2:{ unfold call_GetSlotList, via_libHandle.
      change (libHandle st2) with (libHandle st1). now rewrite Hh1, Hslots. }
  set (st3 := record_call (CallGetSlotList h true) st2).
  rewrite (bind_Returns _ _ st3 _ _
             (findToken_first_match pk st3 h pre slot post _ _ info Hh1 Hpre Hinfo Hmatch)).
  cbn iota beta.
  rewrite (bind_Returns (modify (set_defaultSlot slot)) _ _ tt _ eq_refl).
  set (st4 := set_defaultSlot slot _).
  rewrite (bind_Returns get_defaultSlot _ st4 slot st4 eq_refl).
  rewrite (bind_Returns (setupSessions pk slot (MaxTokenSession c)) _ st4 None
             (set_sessionPools (<[slot := newPool (MaxTokenSession c)]> (sessionPools st4)) st4)).
  2:{ unfold setupSessions. now rewrite Hsetup. }
  set (st5 := set_sessionPools _ st4).
  rewrite (bind_Returns get_defaultSlot _ st5 slot st5 eq_refl).
  assert (Hh5 : libHandle st5 = Some h).
  { cbn. now rewrite probed_libHandle. }
  assert (Hcalls5 : calls st5 = calls st
            ++ [CallNew (Path c); CallInitialize h; CallGetSlotList h true]
            ++ map (CallGetTokenInfo h) (pre ++ [slot])).
  { cbn. rewrite probed_calls. cbn. now rewrite <- !app_assoc. }
  pose proof (withSession_open pk slot (loginIfRequired pk (Flags info) c) st5 h
                (newPool (MaxTokenSession c)) s
                (lookup_insert_eq _ _ _) eq_refl Hmax Hh5 Hopen) as Hws.
  cbn zeta in Hws.
  set (st6 := set_sessionPools _ _) in Hws.
  assert (Hh6 : libHandle st6 = Some h) by exact Hh5.
  assert (Hcalls6 : calls st6 = calls st ++ bootstrap_calls c h pre slot).
  { unfold bootstrap_calls. cbn [calls st6 set_sessionPools record_call].
    rewrite Hcalls5. now rewrite <- !app_assoc. }
  destruct (N.eq_dec (N.land (Flags info) CKF_LOGIN_REQUIRED) 0) as [Hclear|Hset].
  - rewrite (loginIfRequired_clear pk _ c s st6 Hclear) in Hws.
    rewrite (bind_Returns _ _ _ _ _ Hws).
    eexists _, _, []. unfold bind, get_libHandle, ret.
    rewrite release_libHandle, Hh6. split; [reflexivity|].
    rewrite release_calls, Hcalls6, app_nil_r.
    split; [reflexivity|]. split; [congruence|].
    intros _. split; [reflexivity|]. split; [reflexivity|].
    intros s0 st0. now apply loginIfRequired_clear.
  - destruct (loginIfRequired_set pk _ c s st6 h Hset Hh6) as (st7 & Hrun & Hcalls7 & Hh7).
    rewrite Hrun in Hws. rewrite (bind_Returns _ _ _ _ _ Hws).
    exists (match mod_Login pk h s CKU_USER (Pin c) with
            | None => (Some h, None)
            | Some rv => (None, Some (Pkcs11Error rv))
            end).
    destruct (mod_Login pk h s CKU_USER (Pin c)) as [rv|];
      cbn [toError fmap option_fmap option_map].
    + eexists _, [CallLogin h s CKU_USER (Pin c)]. split; [reflexivity|].
      cbn [calls record_log]. rewrite release_calls, Hcalls7, Hcalls6.
      rewrite <- app_assoc.
      split; [reflexivity|]. split; [now intros _|congruence].
    + eexists _, [CallLogin h s CKU_USER (Pin c)].
      unfold bind, get_libHandle, ret.
      rewrite release_libHandle, Hh7, Hh6. split; [reflexivity|].
      rewrite release_calls, Hcalls7, Hcalls6. rewrite <- app_assoc.
      split; [reflexivity|]. split; [now intros _|congruence].
Qed.

(** C9: in a first [Configure] call a login is attempted exactly when the
    resolved token's flags have [CKF_LOGIN_REQUIRED] set.  Only if:
    whatever becomes of the call, [Login] is among its module calls only
    as the user with the configured PIN and after a resolution that
    returned flags with the bit set.  If: once a token is resolved and a
    session borrowed for it, the calls made are those of the bootstrap
    followed by one [Login] on the borrowed session when the bit is set,
    whose result is then the call's; with the bit clear no login call is
    made, the function handed to [withSession] returns nil without
    touching anything, and [Configure] succeeds. *)
Theorem Configure_login_when_required (pk : World) (st : State)
    (c : PKCS11Config) :
  makes_only (login_justified pk c) (Configure pk (Some c)) st
  /\ forall (h : Ctx) (pre : list uint) (slot : uint) (post : list uint)
            (info : TokenInfo) (s : SessionHandle),
    libHandle st = None ->
    pkcs11_New pk (Path c) = Some h ->
    mod_Initialize pk h = None ->
    mod_GetSlotList pk h true = inl (pre ++ slot :: post) ->
    Forall (passed_over pk h (TokenSerial c) (TokenLabel c)) pre ->
    mod_GetTokenInfo pk h slot = inl info ->
    SerialNumber info = TokenSerial c \/ Label info = TokenLabel c ->
    setup_failure pk slot (MaxTokenSession c) = None ->
    (0 < MaxTokenSession c)%Z ->
    mod_OpenSession pk h slot rw_session = inl s ->
    exists r st' logins,
      Configure pk (Some c) st = Returns r st'
      /\ calls st' = calls st ++ bootstrap_calls c h pre slot ++ logins
      /\ (N.land (Flags info) CKF_LOGIN_REQUIRED <> 0 ->
          logins = [CallLogin h s CKU_USER (Pin c)]
          /\ r = match mod_Login pk h s CKU_USER (Pin c) with
                 | None => (Some h, None)
                 | Some rv => (None, Some (Pkcs11Error rv))
                 end)
      /\ (N.land (Flags info) CKF_LOGIN_REQUIRED = 0 ->
          logins = [] /\ r = (Some h, None)
          /\ forall s0 st0,
               loginIfRequired pk (Flags info) c s0 st0 = Returns None st0).
Proof.
  split; [apply Configure_logins|].
  intros h pre slot post info s.
  apply Configure_reaches_login.
Qed.

Lemma Configure_login_when_required_witness :
  exists r st' logins,
    Configure softhsm (Some (by_serial "mod.so" "1234")) initial = Returns r st'
    /\ calls st' = calls initial
         ++ bootstrap_calls (by_serial "mod.so" "1234") 1 [1] 2 ++ logins
    /\ (N.land (Flags (token "Y" "S" 0x40D)) CKF_LOGIN_REQUIRED <> 0 ->
        logins = [CallLogin 1 102 CKU_USER (Pin (by_serial "mod.so" "1234"))]
        /\ r = match mod_Login softhsm 1 102 CKU_USER (Pin (by_serial "mod.so" "1234")) with
               | None => (Some 1, None)
               | Some rv => (None, Some (Pkcs11Error rv))
               end)
    /\ (N.land (Flags (token "Y" "S" 0x40D)) CKF_LOGIN_REQUIRED = 0 ->
        logins = [] /\ r = (Some 1, None)
        /\ forall s0 st0,
             loginIfRequired softhsm (Flags (token "Y" "S" 0x40D))
               (by_serial "mod.so" "1234") s0 st0 = Returns None st0).
Proof.
  apply (proj2 (Configure_login_when_required softhsm initial
                  (by_serial "mod.so" "1234"))
           1 [1] 2 [] (token "Y" "S" 0x40D) 102).
  - reflexivity.
  - reflexivity.
  - reflexivity.
  - reflexivity.
  - repeat constructor.
    eexists; (split; [reflexivity|split; discriminate]).
  - reflexivity.
  - left. reflexivity.
  - reflexivity.
  - reflexivity.
  - reflexivity.
Defined.

(** ** The pool under concurrent callers *)

Section PoolBound.

Implicit Types (sys : System) (p : Pool) (c : caller) (slot : uint).

Lemma holds_Some slot c s : holds slot c = Some s <-> c = Running slot s.
Proof.
  destruct c as [slot'|slot' s'|res]; cbn; try (split; discriminate).
  case_decide; split; intros Heq; simplify_eq; auto.
Qed.

(** Replacing one caller changes the count of held sessions by what the
    old and the new caller hold. *)
Lemma in_use_update slot sys i c c' ps :
  callers sys !! i = Some c ->
  (length (in_use slot {| pools := ps; callers := <[i := c']> (callers sys) |})
   + match holds slot c with Some _ => 1 | None => 0 end
   = length (in_use slot sys)
     + match holds slot c' with Some _ => 1 | None => 0 end)%nat.
Proof.
  intros Hi. unfold in_use. cbn [callers].
  rewrite insert_take_drop by (eapply lookup_lt_Some; eauto).
  rewrite <- (take_drop_middle _ _ _ Hi) at 3.
  rewrite !omap_app, !length_app. simpl.
  destruct (holds slot c), (holds slot c'); simpl; lia.
Qed.

Lemma in_use_none slot sys :
  Forall (fun c => forall slot s, c <> Running slot s) (callers sys) ->
  in_use slot sys = [].
Proof.
  unfold in_use. induction 1 as [|c l Hc _ IH]; [reflexivity|].
  cbn. destruct (holds slot c) as [s|] eqn:Hs; [|exact IH].
  apply holds_Some in Hs. now destruct (Hc slot s).
Qed.

Lemma acquire_from_TakeIdle p s p' :
  acquire_from p = TakeIdle s p' ->
  idle p = s :: idle p' /\ opened p' = opened p /\ ceiling p' = ceiling p.
Proof.
  unfold acquire_from. destruct (idle p) as [|s0 rest].
  - destruct (opened p <? ceiling p)%Z; discriminate.
  - intros [= <- <-]. auto.
Qed.

Lemma acquire_from_OpenNew p :
  acquire_from p = OpenNew <-> idle p = [] /\ (opened p < ceiling p)%Z.
Proof.
  unfold acquire_from. destruct (idle p) as [|s0 rest].
  - destruct (Z.ltb_spec (opened p) (ceiling p)); split; intros Heq;
      try discriminate; try tauto; lia.
  - split; [discriminate|]. now intros [? _].
Qed.

Lemma acquire_from_Wait p :
  idle p = [] -> (ceiling p <= opened p)%Z -> acquire_from p = Wait.
Proof.
  intros Hidle Hfull. unfold acquire_from. rewrite Hidle.
  destruct (Z.ltb_spec (opened p) (ceiling p)); [lia|reflexivity].
Qed.

Lemma at_start_invariant sys : at_start sys -> pool_invariant sys.
Proof.
  intros [Hpools Hcallers]. split.
  - intros slot p Hp. rewrite (in_use_none _ _ Hcallers), (Hpools _ _ Hp). cbn. lia.
  - intros i j slot1 slot2 s Hi _.
    now destruct (Forall_lookup_1 _ _ _ _ Hcallers Hi slot1 s).
  - intros slot p s i slot' _ _ Hi.
    now destruct (Forall_lookup_1 _ _ _ _ Hcallers Hi slot' s).
  - intros slot p Hp. rewrite (Hpools _ _ Hp). constructor.
  - intros slot1 slot2 p1 p2 s _ Hp1 _ Hs.
    rewrite (Hpools _ _ Hp1) in Hs. now apply elem_of_nil in Hs.
Qed.

(** What a caller looked like before caller [i] was replaced. *)
Ltac caller_before H :=
  apply list_lookup_insert_Some in H as [(<- & H & _)|[? H]]; simplify_eq.

Ltac count :=
  cbn [length grown returned idle opened ceiling] in *; lia.

Ltac pool_before H :=
  apply lookup_insert_Some in H as [[<- H]|[? H]]; simplify_eq.

Lemma step_invariant i sys sys' :
  step i sys sys' -> pool_invariant sys -> pool_invariant sys'.
Proof.
  intros Hstep [Hcount Hholder Hfree Hnodup Hapart].
  destruct Hstep as [slot p s p' Hi Hp Hacq | slot p s Hi Hp Hacq Hfresh
                    | slot p rv Hi Hp Hacq | slot s p result Hi Hp
                    | result slot Hi].
  - (* an idle session is taken *)
    apply acquire_from_TakeIdle in Hacq as (Hidle & Hopened & Hceiling).
    pose proof (Hnodup _ _ Hp) as Hnd. rewrite Hidle in Hnd.
    apply NoDup_cons in Hnd as [Hnotin Hnd].
    assert (Hhead : s ∈ idle p) by (rewrite Hidle; apply elem_of_cons; now left).
    assert (Htail : forall x, x ∈ idle p' -> x ∈ idle p)
      by (intros x Hx; rewrite Hidle; apply elem_of_cons; now right).
    split; cbn [pools callers].
    + intros slot0 p0 Hp0.
      pose proof (in_use_update slot0 sys i _ (Running slot s)
                    (<[slot := p']> (pools sys)) Hi) as Hlen.
      cbn [holds] in Hlen.
      pool_before Hp0.
      * rewrite decide_True in Hlen by reflexivity.
        destruct (Hcount _ _ Hp) as [Hsum Hbound]. rewrite Hidle in Hsum. count.
      * rewrite decide_False in Hlen by assumption.
        destruct (Hcount _ _ Hp0) as [Hsum Hbound]. count.
    + intros a b slot1 slot2 x Ha Hb.
      caller_before Ha; caller_before Hb; try reflexivity.
      * exfalso. eapply Hfree; [exact Hp|exact Hhead|exact Hb].
      * exfalso. eapply Hfree; [exact Hp|exact Hhead|exact Ha].
      * eapply Hholder; eauto.
    + intros slot0 p0 x a slot' Hp0 Hx Ha.
      pool_before Hp0; caller_before Ha.
      * contradiction.
      * eapply Hfree; [exact Hp|apply Htail, Hx|exact Ha].
      * eapply Hapart; [|exact Hp|exact Hp0|exact Hhead|exact Hx]. assumption.
      * eapply Hfree; eauto.
    + intros slot0 p0 Hp0. pool_before Hp0; eauto.
    + intros slot1 slot2 p1 p2 x Hne Hp1 Hp2 Hx.
      pool_before Hp1; pool_before Hp2; try (exfalso; congruence).
      * eapply Hapart; [|exact Hp|exact Hp2|apply Htail, Hx]. assumption.
      * intros Hx2. eapply Hapart; [|exact Hp1|exact Hp|exact Hx|apply Htail, Hx2].
        assumption.
      * eapply Hapart; [|exact Hp1|exact Hp2|exact Hx]. assumption.
  - (* a new session is opened *)
    apply acquire_from_OpenNew in Hacq as [Hidle Hroom].
    split; cbn [pools callers].
    + intros slot0 p0 Hp0.
      pose proof (in_use_update slot0 sys i _ (Running slot s)
                    (<[slot := grown p]> (pools sys)) Hi) as Hlen.
      cbn [holds] in Hlen.
      pool_before Hp0.
      * rewrite decide_True in Hlen by reflexivity.
        destruct (Hcount _ _ Hp) as [Hsum Hbound]. count.
      * rewrite decide_False in Hlen by assumption.
        destruct (Hcount _ _ Hp0) as [Hsum Hbound]. count.
    + intros a b slot1 slot2 x Ha Hb.
      caller_before Ha; caller_before Hb; try reflexivity.
      * destruct Hfresh. left. eauto.
      * destruct Hfresh. left. eauto.
      * eapply Hholder; eauto.
    + intros slot0 p0 x a slot' Hp0 Hx Ha.
      pool_before Hp0; caller_before Ha.
      * destruct Hfresh. right. eauto.
      * eapply Hfree; [exact Hp|exact Hx|exact Ha].
      * destruct Hfresh. right. eauto.
      * eapply Hfree; eauto.
    + intros slot0 p0 Hp0. pool_before Hp0; eauto. now apply (Hnodup _ _ Hp).
    + intros slot1 slot2 p1 p2 x Hne Hp1 Hp2 Hx.
      pool_before Hp1; pool_before Hp2; try (exfalso; congruence).
      * eapply Hapart; [|exact Hp|exact Hp2|exact Hx]. assumption.
      * intros Hin. eapply Hapart; [|exact Hp1|exact Hp|exact Hx|exact Hin].
        assumption.
      * eapply Hapart; [|exact Hp1|exact Hp2|exact Hx]. assumption.
  - (* opening a session fails *)
    split; cbn [pools callers].
    + intros slot0 p0 Hp0.
      pose proof (in_use_update slot0 sys i _ (Finished (Some (Pkcs11Error rv)))
                    (pools sys) Hi) as Hlen.
      cbn [holds] in Hlen.
      destruct (Hcount _ _ Hp0) as [Hsum Hbound]. count.
    + intros a b slot1 slot2 x Ha Hb.
      caller_before Ha; caller_before Hb. eapply Hholder; eauto.
    + intros slot0 p0 x a slot' Hp0 Hx Ha.
      caller_before Ha. eapply Hfree; eauto.
    + exact Hnodup.
    + exact Hapart.
  - (* a session is returned *)
    assert (Hout : forall slot0 p0, pools sys !! slot0 = Some p0 -> s ∉ idle p0)
      by (intros slot0 p0 Hp0 Hin; eapply Hfree; [exact Hp0|exact Hin|exact Hi]).
    split; cbn [pools callers].
    + intros slot0 p0 Hp0.
      pose proof (in_use_update slot0 sys i _ (Finished result)
                    (<[slot := returned s p]> (pools sys)) Hi) as Hlen.
      cbn [holds] in Hlen.
      pool_before Hp0.
      * rewrite decide_True in Hlen by reflexivity.
        destruct (Hcount _ _ Hp) as [Hsum Hbound]. count.
      * rewrite decide_False in Hlen by assumption.
        destruct (Hcount _ _ Hp0) as [Hsum Hbound]. count.
    + intros a b slot1 slot2 x Ha Hb.
      caller_before Ha; caller_before Hb. eapply Hholder; eauto.
    + intros slot0 p0 x a slot' Hp0 Hx Ha.
      caller_before Ha. pool_before Hp0.
      * cbn [returned idle] in Hx. apply elem_of_cons in Hx as [->|Hx].
        -- pose proof (Hholder _ _ _ _ _ Hi Ha). contradiction.
        -- eapply Hfree; [exact Hp|exact Hx|exact Ha].
      * eapply Hfree; eauto.
    + intros slot0 p0 Hp0. pool_before Hp0; eauto.
      cbn [returned idle]. apply NoDup_cons. split; [|now apply (Hnodup _ _ Hp)].
      now apply (Hout _ _ Hp).
    + intros slot1 slot2 p1 p2 x Hne Hp1 Hp2 Hx.
      pool_before Hp1; pool_before Hp2; try (exfalso; congruence).
      * cbn [returned idle] in Hx. apply elem_of_cons in Hx as [->|Hx].
        -- now apply (Hout _ _ Hp2).
        -- eapply Hapart; [|exact Hp|exact Hp2|exact Hx]. assumption.
      * cbn [returned idle]. intros Hin. apply elem_of_cons in Hin as [->|Hin].
        -- now apply (Hout _ _ Hp1).
        -- eapply Hapart; [|exact Hp1|exact Hp|exact Hx|exact Hin]. assumption.
      * eapply Hapart; [|exact Hp1|exact Hp2|exact Hx]. assumption.
  - (* a caller comes back for another operation *)
    split; cbn [pools callers].
    + intros slot0 p0 Hp0.
      pose proof (in_use_update slot0 sys i _ (Waiting slot) (pools sys) Hi) as Hlen.
      cbn [holds] in Hlen.
      destruct (Hcount _ _ Hp0) as [Hsum Hbound]. count.
    + intros a b slot1 slot2 x Ha Hb.
      caller_before Ha; caller_before Hb. eapply Hholder; eauto.
    + intros slot0 p0 x a slot' Hp0 Hx Ha.
      caller_before Ha. eapply Hfree; eauto.
    + exact Hnodup.
    + exact Hapart.
Qed.

Lemma steps_invariant sys sys' :
  steps sys sys' -> pool_invariant sys -> pool_invariant sys'.
Proof.
  induction 1 as [|sys1 sys2 sys3 [i Hstep] _ IH]; [auto|].
  intros Hinv. apply IH. eapply step_invariant; eauto.
Qed.

(** A pool stays where it is and keeps its ceiling. *)
Lemma step_ceiling i sys sys' slot p :
  step i sys sys' -> pools sys !! slot = Some p ->
  exists p', pools sys' !! slot = Some p' /\ ceiling p' = ceiling p.
Proof.
  intros Hstep Hp.
  destruct Hstep as [slot0 p0 s p' Hi Hp0 Hacq | slot0 p0 s Hi Hp0 Hacq Hfresh
                    | slot0 p0 rv Hi Hp0 Hacq | slot0 s p0 result Hi Hp0
                    | result slot0 Hi]; cbn [pools]; eauto;
    (destruct (decide (slot0 = slot)) as [->|Hne];
     [rewrite lookup_insert_eq; simplify_eq|rewrite lookup_insert_ne by done; eauto]).
  - apply acquire_from_TakeIdle in Hacq as (_ & _ & Hceiling). eauto.
  - eauto.
  - eauto.
Qed.

Lemma steps_ceiling sys sys' slot p :
  steps sys sys' -> pools sys !! slot = Some p ->
  exists p', pools sys' !! slot = Some p' /\ ceiling p' = ceiling p.
Proof.
  intros Hsteps. revert p.
  induction Hsteps as [|sys1 sys2 sys3 [i Hstep] _ IH]; intros p Hp; [eauto|].
  destruct (step_ceiling _ _ _ _ _ Hstep Hp) as (p2 & Hp2 & Hc2).
  destruct (IH _ Hp2) as (p3 & Hp3 & Hc3). exists p3. split; [done|congruence].
Qed.

(** With as many sessions in use as the ceiling allows, a waiting caller
    has no step at all: it cannot take a session, open one or fail. *)
Lemma exhausted_blocks i sys slot p :
  pool_invariant sys ->
  pools sys !! slot = Some p ->
  callers sys !! i = Some (Waiting slot) ->
  (0 <= ceiling p)%Z ->
  Z.of_nat (length (in_use slot sys)) = ceiling p ->
  forall sys', ~ step i sys sys'.
Proof.
  intros Hinv Hp Hi Hpos Hfull sys' Hstep.
  destruct (inv_count _ Hinv _ _ Hp) as [Hsum Hbound].
  assert (Hwait : acquire_from p = Wait).
  { apply acquire_from_Wait; [|lia].
    destruct (idle p); [reflexivity|]. cbn [length] in Hsum. lia. }
  destruct Hstep as [slot0 p0 s p' Hi' Hp0 Hacq | slot0 p0 s Hi' Hp0 Hacq Hfresh
                    | slot0 p0 rv Hi' Hp0 Hacq | slot0 s p0 result Hi' Hp0
                    | result slot0 Hi'];
    rewrite Hi in Hi'; try discriminate Hi';
    injection Hi' as <-; rewrite Hp in Hp0; injection Hp0 as <-; congruence.
Qed.

End PoolBound.

(** C5: start from pools as [setupSessions] makes them, the one for [slot]
    with ceiling [n], and any number of callers of [withSession], none yet
    running.  After any interleaving of their steps: at most [n] sessions
    of the slot are in use; no session handle is held by two running
    operations; and when [n] sessions are in use a caller waiting for the
    slot has no step, so it waits, it does not fail. *)
Theorem pool_never_exceeds_ceiling (sys0 sys : System) (slot : uint) (n : Z) :
  at_start sys0 ->
  pools sys0 !! slot = Some (newPool n) ->
  (0 <= n)%Z ->
  steps sys0 sys ->
  (Z.of_nat (length (in_use slot sys)) <= n)%Z
  /\ (forall i j slot1 slot2 s,
        callers sys !! i = Some (Running slot1 s) ->
        callers sys !! j = Some (Running slot2 s) -> i = j)
  /\ (forall i,
        callers sys !! i = Some (Waiting slot) ->
        Z.of_nat (length (in_use slot sys)) = n ->
        forall sys', ~ step i sys sys').
Proof.
  intros Hstart Hpool Hn Hsteps.
  pose proof (steps_invariant _ _ Hsteps (at_start_invariant _ Hstart)) as Hinv.
  destruct (steps_ceiling _ _ _ _ Hsteps Hpool) as (p & Hp & Hceiling).
  cbn [newPool ceiling] in Hceiling.
  destruct (inv_count _ Hinv _ _ Hp) as [Hsum Hbound].
  split; [lia|]. split; [exact (inv_holder _ Hinv)|].
  intros i Hi Hfull. eapply exhausted_blocks; eauto; lia.
Qed.

(** Ceiling 1, two callers: once the first has its session, one session is
    in use and the second caller cannot move. *)
Lemma pool_never_exceeds_ceiling_witness :
  (Z.of_nat (length (in_use 2%N one_running)) <= 1)%Z
  /\ forall sys', ~ step 1 one_running sys'.
Proof.
  assert (Hstart : at_start two_callers).
  { split.
    - intros slot p Hp. unfold two_callers, pools in Hp.
      apply lookup_singleton_Some in Hp as [_ <-]. reflexivity.
    - repeat constructor; discriminate. }
  assert (Hsteps : steps two_callers one_running).
  { apply rtc_once. exists 0%nat.
    apply (step_open 0 two_callers 2 (newPool 1) 102); try reflexivity.
    intros [(i & slot & Hi)|(slot & p & Hp & Hin)].
    - destruct i as [|[|i]]; discriminate Hi.
    - unfold two_callers, pools in Hp.
      apply lookup_singleton_Some in Hp as [_ <-]. now apply elem_of_nil in Hin. }
  destruct (pool_never_exceeds_ceiling two_callers one_running 2 1
              Hstart eq_refl ltac:(lia) Hsteps) as (Hbound & _ & Hblocked).
  split; [exact Hbound|].
  apply Hblocked; reflexivity.
Defined.

(** * Further properties *)

(** ** The resolver, continued *)

Section ResolverMore.

Context (pk : World).

(** X1: searching a concatenation is searching the first part and, only
    when that ends in [ErrTokenNotFound], carrying on with the second from
    where the first stopped; a match or a read error in the first part is
    the answer, whatever follows. *)
Theorem findToken_app slots more serial label st :
  findToken pk (slots ++ more) serial label st
  = match findToken pk slots serial label st with
    | Returns (_, _, Some ErrTokenNotFound) st' => findToken pk more serial label st'
    | other => other
    end.
Proof.
  revert st. induction slots as [|slot rest IH]; intros st; [reflexivity|].
  rewrite <- app_comm_cons. cbn [findToken]. unfold bind.
  destruct (call_GetTokenInfo pk slot st) as [[info|err] st'|st'|st'] eqn:Hcall;
    try reflexivity.
  - destruct (String.eqb _ serial); [reflexivity|].
    destruct (String.eqb _ label); [reflexivity|]. apply IH.
  - unfold call_GetTokenInfo, via_libHandle in Hcall.
    destruct (libHandle st); [|discriminate].
    injection Hcall as Hres _. unfold toResult in Hres.
    destruct (mod_GetTokenInfo pk _ slot); [discriminate|].
    injection Hres as <-. reflexivity.
Qed.

(** What a nil error from [findToken] stands for. *)
Lemma findToken_found_inv st slots serial label slot flags st' :
  findToken pk slots serial label st = Returns (slot, flags, None) st' ->
  exists h pre post info,
    libHandle st = Some h
    /\ slots = pre ++ slot :: post
    /\ Forall (passed_over pk h serial label) pre
    /\ mod_GetTokenInfo pk h slot = inl info
    /\ flags = Flags info
    /\ (SerialNumber info = serial \/ Label info = label)
    /\ st' = probed h (pre ++ [slot]) st.
Proof.
  revert st. induction slots as [|s rest IH]; intros st Hrun; [discriminate|].
  cbn [findToken] in Hrun. unfold bind, call_GetTokenInfo, via_libHandle in Hrun.
  destruct (libHandle st) as [h|] eqn:Hh; [|discriminate].
  destruct (mod_GetTokenInfo pk h s) as [info|rv] eqn:Hinfo; cbn in Hrun;
    [|discriminate].
  destruct (String.eqb_spec (SerialNumber info) serial) as [Hser|Hser].
  { injection Hrun as <- <- <-. exists h, [], rest, info. repeat split; auto. }
  destruct (String.eqb_spec (Label info) label) as [Hlab|Hlab].
  { injection Hrun as <- <- <-. exists h, [], rest, info. repeat split; auto. }
  destruct (IH _ Hrun) as (h' & pre & post & info' & Hh' & -> & Hpre & Hinfo' & -> & Hm & ->).
  cbn in Hh'. rewrite Hh in Hh'. injection Hh' as <-.
  exists h, (s :: pre), post, info'. repeat split; auto.
  constructor; [now exists info|assumption].
Qed.

(** With the library loaded the search always returns, having read the
    first [k] slots in order. *)
Lemma findToken_reads_prefix_gen st h slots serial label :
  libHandle st = Some h ->
  exists k r, (k <= length slots)%nat
    /\ findToken pk slots serial label st = Returns r (probed h (take k slots) st).
Proof.
  revert st. induction slots as [|s rest IH]; intros st Hh.
  - exists 0%nat, (0, 0, Some ErrTokenNotFound). split; [cbn; lia|reflexivity].
  - cbn [findToken]. unfold bind.
    rewrite (call_GetTokenInfo_loaded pk _ _ _ Hh).
    destruct (mod_GetTokenInfo pk h s) as [info|rv]; cbn [toResult].
    + destruct (String.eqb _ serial).
      { exists 1%nat, (s, Flags info, None). split; [cbn; lia|reflexivity]. }
      destruct (String.eqb _ label).
      { exists 1%nat, (s, Flags info, None). split; [cbn; lia|reflexivity]. }
      destruct (IH (record_call (CallGetTokenInfo h s) st) Hh) as (k & r & Hk & Hrun).
      exists (S k), r. split; [cbn; lia|exact Hrun].
    + exists 1%nat, (0, 0, Some (Pkcs11Error rv)). split; [cbn; lia|reflexivity].
Qed.

(** X5: an error from [findToken] comes with slot 0 and flags 0, and it is
    either [ErrTokenNotFound] or an error of the module. *)
Theorem findToken_error_convention st slots serial label slot flags e st' :
  findToken pk slots serial label st = Returns (slot, flags, Some e) st' ->
  slot = 0 /\ flags = 0 /\ (e = ErrTokenNotFound \/ exists rv, e = Pkcs11Error rv).
Proof.
  revert st. induction slots as [|s rest IH]; intros st Hrun.
  - injection Hrun as <- <- <- _. auto.
  - cbn [findToken] in Hrun. unfold bind, call_GetTokenInfo, via_libHandle in Hrun.
    destruct (libHandle st) as [h|]; [|discriminate].
    destruct (mod_GetTokenInfo pk h s) as [info|rv]; cbn in Hrun.
    + destruct (String.eqb _ serial); [discriminate|].
      destruct (String.eqb _ label); [discriminate|]. eauto.
    + injection Hrun as <- <- <- _. eauto.
Qed.

(** The only matching slot is found wherever it stands. *)
Lemma findToken_only_match st h slots serial label slot info :
  libHandle st = Some h ->
  slot ∈ slots ->
  mod_GetTokenInfo pk h slot = inl info ->
  SerialNumber info = serial \/ Label info = label ->
  (forall s, s ∈ slots -> s <> slot -> passed_over pk h serial label s) ->
  exists st', findToken pk slots serial label st = Returns (slot, Flags info, None) st'.
Proof.
  intros Hh Hin Hinfo Hmatch Hothers.
  apply list_elem_of_split_l in Hin as (pre & post & -> & Hfirst).
  eexists. apply findToken_first_match; eauto.
  apply Forall_forall. intros s Hs. apply Hothers.
  - apply elem_of_app. now left.
  - intros ->. contradiction.
Qed.

Lemma probed_frame h slots st :
  only_sessions_differ st (probed h slots st)
  /\ sessionPools (probed h slots st) = sessionPools st.
Proof.
  revert st. induction slots as [|slot slots IH]; intros st.
  - repeat split.
  - rewrite probed_cons. destruct (IH (record_call (CallGetTokenInfo h slot) st))
      as ((H1 & H2 & H3 & H4) & H5).
    repeat split; assumption.
Qed.

End ResolverMore.

Lemma findToken_error_convention_witness :
  0 = 0 /\ 0 = 0
  /\ (Pkcs11Error 0x3 = ErrTokenNotFound \/ exists rv, Pkcs11Error 0x3 = Pkcs11Error rv).
Proof.
  apply (findToken_error_convention softhsm loaded [1; 3; 2] "S" "" 0 0
           (Pkcs11Error 0x3) (probed 1 [1; 3] loaded)).
  reflexivity.
Defined.

(** X2: a nil error from [findToken] means what it should: the library is
    loaded, the returned slot is in the list, its token was read and
    matches the serial number or the label, the flags are that token's,
    every slot listed before it was read and matches neither, and nothing
    after it was read. *)
Theorem findToken_result_sound (pk : World) (st st' : State)
    (slots : list uint) (serial label : string) (slot flags : uint) :
  findToken pk slots serial label st = Returns (slot, flags, None) st' ->
  exists h pre post info,
    libHandle st = Some h
    /\ slots = pre ++ slot :: post
    /\ Forall (passed_over pk h serial label) pre
    /\ mod_GetTokenInfo pk h slot = inl info
    /\ flags = Flags info
    /\ (SerialNumber info = serial \/ Label info = label)
    /\ st' = probed h (pre ++ [slot]) st.
Proof. apply findToken_found_inv. Qed.

Lemma findToken_result_sound_witness :
  exists h pre post info,
    libHandle loaded = Some h
    /\ [1; 2; 4] = pre ++ 2 :: post
    /\ Forall (passed_over softhsm h "S" "") pre
    /\ mod_GetTokenInfo softhsm h 2 = inl info
    /\ 0x40D = Flags info
    /\ (SerialNumber info = "S" \/ Label info = "")
    /\ probed 1 [1; 2] loaded = probed h (pre ++ [2]) loaded.
Proof.
  apply (findToken_result_sound softhsm loaded (probed 1 [1; 2] loaded)
           [1; 2; 4] "S" "" 2 0x40D).
  reflexivity.
Defined.

(** X3: when exactly one listed slot holds a matching token and the others
    are readable and match nothing, [findToken] returns that slot and its
    flags for every ordering of the list. *)
Theorem findToken_order_independent (pk : World) (st : State) (h : Ctx)
    (slots slots' : list uint) (serial label : string) (slot : uint)
    (info : TokenInfo) :
  libHandle st = Some h ->
  slot ∈ slots ->
  mod_GetTokenInfo pk h slot = inl info ->
  SerialNumber info = serial \/ Label info = label ->
  (forall s, s ∈ slots -> s <> slot -> passed_over pk h serial label s) ->
  slots ≡ₚ slots' ->
  exists st1 st2,
    findToken pk slots serial label st = Returns (slot, Flags info, None) st1
    /\ findToken pk slots' serial label st = Returns (slot, Flags info, None) st2.
Proof.
  intros Hh Hin Hinfo Hmatch Hothers Hperm.
  destruct (findToken_only_match pk st h slots serial label slot info)
    as [st1 H1]; auto.
  destruct (findToken_only_match pk st h slots' serial label slot info)
    as [st2 H2]; auto.
  - now rewrite <- Hperm.
  - intros s Hs. apply Hothers. now rewrite Hperm.
  - eauto.
Qed.

Lemma findToken_order_independent_witness :
  exists st1 st2,
    findToken softhsm [1; 2; 4] "S" "nor-this" loaded
      = Returns (2, Flags (token "Y" "S" 0x40D), None) st1
    /\ findToken softhsm [4; 2; 1] "S" "nor-this" loaded
      = Returns (2, Flags (token "Y" "S" 0x40D), None) st2.
Proof.
  apply (findToken_order_independent softhsm loaded 1 [1; 2; 4] [4; 2; 1]
           "S" "nor-this" 2 (token "Y" "S" 0x40D)).
  - reflexivity.
  - apply elem_of_cons; right; apply elem_of_cons; now left.
  - reflexivity.
  - left. reflexivity.
  - intros s Hs Hne.
    apply elem_of_cons in Hs as [->|Hs];
      [eexists; (split; [reflexivity|split; discriminate])|].
    apply elem_of_cons in Hs as [->|Hs]; [contradiction|].
    apply list_elem_of_singleton in Hs as ->.
    eexists; (split; [reflexivity|split; discriminate]).
  - apply (bool_decide_unpack _). vm_compute. exact I.
Defined.

(** X4: with the library loaded [findToken] always returns, and all it
    does is read token metadata: the calls it adds are [GetTokenInfo] on
    the first [k] slots of the list, in order, and the module handle, the
    default slot, the session pools and the log are as before. *)
Theorem findToken_reads_prefix (pk : World) (st : State) (h : Ctx)
    (slots : list uint) (serial label : string) :
  libHandle st = Some h ->
  exists k r st',
    findToken pk slots serial label st = Returns r st'
    /\ (k <= length slots)%nat
    /\ calls st' = calls st ++ map (CallGetTokenInfo h) (take k slots)
    /\ only_sessions_differ st st'
    /\ sessionPools st' = sessionPools st.
Proof.
  intros Hh.
  destruct (findToken_reads_prefix_gen pk st h slots serial label Hh)
    as (k & r & Hk & Hrun).
  exists k, r, (probed h (take k slots) st).
  split; [exact Hrun|]. split; [exact Hk|]. split; [apply probed_calls|].
  apply probed_frame.
Qed.

Lemma findToken_reads_prefix_witness :
  exists k r st',
    findToken softhsm [1; 2; 4] "S" "" loaded = Returns r st'
    /\ (k <= length [1; 2; 4])%nat
    /\ calls st' = calls loaded ++ map (CallGetTokenInfo 1) (take k [1; 2; 4])
    /\ only_sessions_differ loaded st'
    /\ sessionPools st' = sessionPools loaded.
Proof.
  apply (findToken_reads_prefix softhsm loaded 1 [1; 2; 4] "S" "").
  reflexivity.
Defined.

(** ** Configuration, continued *)

Section ConfigureMore.

Context (pk : World).

Lemma only_sessions_differ_refl st : only_sessions_differ st st.
Proof. repeat split. Qed.

Lemma only_sessions_differ_trans st1 st2 st3 :
  only_sessions_differ st1 st2 -> only_sessions_differ st2 st3 ->
  only_sessions_differ st1 st3.
Proof.
  intros (A1 & A2 & A3 & A4) (B1 & B2 & B3 & B4).
  repeat split; congruence.
Qed.

Lemma acquire_frame slot st r st1 :
  acquire pk slot st = Returns r st1 -> only_sessions_differ st st1.
Proof.
  unfold acquire. destruct (sessionPools st !! slot) as [p|]; [|discriminate].
  destruct (acquire_from p); try discriminate.
  - intros [= _ <-]. repeat split.
  - destruct (libHandle st) as [h|] eqn:Hh; [|discriminate].
    destruct (mod_OpenSession pk h slot rw_session); intros [= _ <-];
      repeat split.
Qed.

Lemma release_frame slot s st : only_sessions_differ st (release slot s st).
Proof. unfold release. destruct (sessionPools st !! slot); repeat split. Qed.

(** The function literal returns nil only without logging, and, where a
    login is required, only when the module accepted it. *)
Lemma loginIfRequired_nil flags c s st st' h :
  libHandle st = Some h ->
  loginIfRequired pk flags c s st = Returns None st' ->
  only_sessions_differ st st'
  /\ (N.land flags CKF_LOGIN_REQUIRED <> 0 ->
      mod_Login pk h s CKU_USER (Pin c) = None).
Proof.
  intros Hh. unfold loginIfRequired, login_required.
  destruct (N.eqb_spec (N.land flags CKF_LOGIN_REQUIRED) 0) as [Hclear|Hset];
    cbn [negb].
  - intros [= <-]. split; [apply only_sessions_differ_refl|]. now intros [].
  - unfold bind, call_Login, via_libHandle. rewrite Hh.
    destruct (mod_Login pk h s CKU_USER (Pin c)) as [rv|]; cbn; [discriminate|].
    intros [= <-]. split; [repeat split|auto].
Qed.

Lemma withSession_login_nil slot flags c st st' h :
  libHandle st = Some h ->
  withSession pk slot (loginIfRequired pk flags c) st = Returns None st' ->
  only_sessions_differ st st'
  /\ (N.land flags CKF_LOGIN_REQUIRED <> 0 ->
      exists s, mod_Login pk h s CKU_USER (Pin c) = None).
Proof.
  intros Hh. unfold withSession.
  destruct (acquire pk slot st) as [[s|err] st1|st1|st1] eqn:Hacq; try discriminate.
  pose proof (acquire_frame _ _ _ _ Hacq) as Hf1.
  assert (Hh1 : libHandle st1 = Some h) by (destruct Hf1 as (-> & _); exact Hh).
  destruct (loginIfRequired pk flags c s st1) as [res st2|st2|st2] eqn:Hrun;
    try discriminate.
  intros [= -> <-].
  destruct (loginIfRequired_nil _ _ _ _ _ _ Hh1 Hrun) as [Hf2 Hok].
  split; [|eauto].
  eapply only_sessions_differ_trans; [exact Hf1|].
  eapply only_sessions_differ_trans; [exact Hf2|apply release_frame].
Qed.

(** Everything a first call that reports no error went through. *)
Lemma Configure_success_inv c st r st1 :
  libHandle st = None ->
  Configure pk (Some c) st = Returns (r, None) st1 ->
  exists h pre slot post info,
    pkcs11_New pk (Path c) = Some h
    /\ r = Some h
    /\ libHandle st1 = Some h
    /\ mod_Initialize pk h = None
    /\ mod_GetSlotList pk h true = inl (pre ++ slot :: post)
    /\ Forall (passed_over pk h (TokenSerial c) (TokenLabel c)) pre
    /\ mod_GetTokenInfo pk h slot = inl info
    /\ (SerialNumber info = TokenSerial c \/ Label info = TokenLabel c)
    /\ defaultSlot st1 = slot
    /\ logged st1 = logged st
    /\ session st1 = session st
    /\ (N.land (Flags info) CKF_LOGIN_REQUIRED <> 0 ->
        exists s, mod_Login pk h s CKU_USER (Pin c) = None).
Proof.
  intros Hh. unfold Configure.
  rewrite (bind_Returns get_libHandle _ st (libHandle st) st eq_refl), Hh.
  rewrite (bind_Returns (assign_New pk (Path c)) _ st tt _ eq_refl).
  set (st1' := set_libHandle _ _).
  rewrite (bind_Returns get_libHandle _ st1' (libHandle st1') st1' eq_refl).
  change (libHandle st1') with (pkcs11_New pk (Path c)).
  destruct (pkcs11_New pk (Path c)) as [h|] eqn:Hnew; [|discriminate].
  assert (Hh1 : libHandle st1' = Some h) by reflexivity.
  rewrite (bind_Returns (call_Initialize pk) _ st1' (toError (mod_Initialize pk h))
             (record_call (CallInitialize h) st1')).
  2:{ unfold call_Initialize, via_libHandle. now rewrite Hh1. }
  destruct (mod_Initialize pk h) as [rv|] eqn:Hinit; [discriminate|].
  cbn [toError fmap option_fmap option_map].
  set (st2 := record_call (CallInitialize h) st1').
  rewrite (bind_Returns (call_GetSlotList pk true) _ st2
             (toResult (mod_GetSlotList pk h true))
             (record_call (CallGetSlotList h true) st2)).
  2:{ unfold call_GetSlotList, via_libHandle.
      change (libHandle st2) with (libHandle st1'). now rewrite Hh1. }
  destruct (mod_GetSlotList pk h true) as [slots|rv] eqn:Hslots; [|discriminate].
  cbn [toResult].
  set (st3 := record_call (CallGetSlotList h true) st2).
  unfold bind at 1.
  destruct (findToken pk slots (TokenSerial c) (TokenLabel c) st3)
    as [[[slot flags] [e|]] st4|st4|st4] eqn:Hfind; try discriminate.
  destruct (findToken_found_inv pk _ _ _ _ _ _ _ Hfind)
    as (h' & pre & post & info & Hh3 & -> & Hpre & Hinfo & -> & Hmatch & ->).
  change (libHandle st3) with (libHandle st1') in Hh3.
  rewrite Hh1 in Hh3. injection Hh3 as <-.
  rewrite (bind_Returns (modify (set_defaultSlot slot)) _ _ tt _ eq_refl).
  set (st5 := set_defaultSlot slot _).
  rewrite (bind_Returns get_defaultSlot _ st5 slot st5 eq_refl).
  unfold bind at 1, setupSessions.
  destruct (setup_failure pk slot (MaxTokenSession c)); [discriminate|].
  set (st6 := set_sessionPools _ st5).
  rewrite (bind_Returns get_defaultSlot _ st6 slot st6 eq_refl).
  assert (Hh6 : libHandle st6 = Some h).
  { cbn. now rewrite probed_libHandle. }
  assert (Hf6 : defaultSlot st6 = slot /\ logged st6 = logged st
                /\ session st6 = session st).
  { destruct (probed_frame h (pre ++ [slot]) st3) as ((_ & Hs & _ & Hl) & _).
    cbn. rewrite Hl, Hs. auto. }
  unfold bind at 1.
  destruct (withSession pk slot (loginIfRequired pk (Flags info) c) st6)
    as [[e|] st7|st7|st7] eqn:Hws; try discriminate.
  destruct (withSession_login_nil _ _ _ _ _ _ Hh6 Hws)
    as ((Hh7 & Hs7 & Hd7 & Hl7) & Hlogin).
  unfold bind, get_libHandle, ret. intros [= <- <-].
  destruct Hf6 as (Hd6 & Hl6 & Hs6).
  exists h, pre, slot, post, info.
  repeat split; try assumption; congruence.
Qed.

Lemma nil_on_error_bind {A} (m : M A) (k : A -> M (option Ctx * option error)) :
  (forall a, nil_on_error (k a)) -> nil_on_error (bind m k).
Proof.
  intros Hk st. unfold bind. destruct (m st) as [a st'| |]; [apply Hk|exact I..].
Qed.

Lemma nil_on_error_ret r : nil_on_error (ret (None, r)).
Proof. intros st. cbn. now destruct r. Qed.

Lemma nil_on_error_ok h : nil_on_error (ret (h, None)).
Proof. intros st. cbn. now destruct h. Qed.

Lemma Configure_nil_on_error config : nil_on_error (Configure pk config).
Proof.
  destruct config as [c|]; unfold Configure.
  2:{ apply nil_on_error_bind. intros [h|];
        [apply nil_on_error_ok|apply nil_on_error_ret]. }
  apply nil_on_error_bind. intros [h|]; [apply nil_on_error_ok|].
  apply nil_on_error_bind. intros _.
  apply nil_on_error_bind. intros [h|].
  2:{ apply nil_on_error_bind. intros _. apply nil_on_error_ret. }
  apply nil_on_error_bind. intros [e|].
  { apply nil_on_error_bind. intros _. apply nil_on_error_ret. }
  apply nil_on_error_bind. intros [slots|e].
  2:{ apply nil_on_error_bind. intros _. apply nil_on_error_ret. }
  apply nil_on_error_bind. intros [[slot flags] err].
  apply nil_on_error_bind. intros _. destruct err as [e|].
  { apply nil_on_error_bind. intros _. apply nil_on_error_ret. }
  apply nil_on_error_bind. intros slot'.
  apply nil_on_error_bind. intros [e|]; [apply nil_on_error_ret|].
  apply nil_on_error_bind. intros slot''.
  apply nil_on_error_bind. intros [e|].
  { apply nil_on_error_bind. intros _. apply nil_on_error_ret. }
  apply nil_on_error_bind. intros h'. apply nil_on_error_ok.
Qed.

End ConfigureMore.

(** X6: [Configure] returns a context or an error, never both and never
    neither; a returned context is the module handle now stored. *)
Theorem Configure_context_or_error (pk : World)
    (config : option PKCS11Config) (st st' : State)
    (r : option Ctx) (e : option error) :
  Configure pk config st = Returns (r, e) st' ->
  (exists h, r = Some h /\ e = None /\ libHandle st' = Some h)
  \/ (r = None /\ exists err, e = Some err).
Proof.
  intros Hrun. destruct e as [err|].
  - right. split; [|eauto].
    pose proof (Configure_nil_on_error pk config st) as Hnil.
    rewrite Hrun in Hnil. now destruct r.
  - left. destruct (Configure_success pk config st r st' Hrun) as (h & -> & Hh).
    eauto.
Qed.

Lemma Configure_context_or_error_witness :
  (exists h, None = Some h /\ Some (Pkcs11Error 0xA0) = None
             /\ libHandle (final_state (Configure softhsm
                  (Some (by_serial "mod.so" "0000")) initial)) = Some h)
  \/ (None = (None : option Ctx) /\ exists err, Some (Pkcs11Error 0xA0) = Some err).
Proof.
  apply (Configure_context_or_error softhsm
           (Some (by_serial "mod.so" "0000")) initial).
  vm_compute. reflexivity.
Defined.

(** X7: in a first call the module handle stays nil exactly when
    [pkcs11.New] returned nil.  The call then returns
    [ErrCannotOpenPKCS11] after that one call into the binding, leaves the
    default slot and the session pools alone, and the library counts as
    not configured: [Configure(nil)] still answers [ErrNotConfigured]. *)
Theorem Configure_load_failure (pk : World) (c : PKCS11Config) (st : State) :
  libHandle st = None ->
  (pkcs11_New pk (Path c) = None
   <-> libHandle (final_state (Configure pk (Some c) st)) = None)
  /\ (pkcs11_New pk (Path c) = None ->
      exists st',
        Configure pk (Some c) st = Returns (None, Some ErrCannotOpenPKCS11) st'
        /\ calls st' = calls st ++ [CallNew (Path c)]
        /\ defaultSlot st' = defaultSlot st
        /\ sessionPools st' = sessionPools st
        /\ Configure pk None st' = Returns (None, Some ErrNotConfigured) st').
Proof.
  intros Hh. destruct (Configure_first pk c st Hh) as [Hset _]. split.
  - rewrite Hset. reflexivity.
  - intros Hnew. unfold Configure at 1.
    rewrite (bind_Returns get_libHandle _ st (libHandle st) st eq_refl), Hh.
    rewrite (bind_Returns (assign_New pk (Path c)) _ st tt _ eq_refl).
    unfold bind, get_libHandle, Printf, modify, ret. cbn [libHandle set_libHandle].
    rewrite Hnew. eexists. split; [reflexivity|]. repeat split.
Qed.

Lemma Configure_load_failure_witness :
  (pkcs11_New softhsm (Path (by_serial "missing.so" "1234")) = None
   <-> libHandle (final_state (Configure softhsm
         (Some (by_serial "missing.so" "1234")) initial)) = None)
  /\ (pkcs11_New softhsm (Path (by_serial "missing.so" "1234")) = None ->
      exists st',
        Configure softhsm (Some (by_serial "missing.so" "1234")) initial
          = Returns (None, Some ErrCannotOpenPKCS11) st'
        /\ calls st' = calls initial ++ [CallNew (Path (by_serial "missing.so" "1234"))]
        /\ defaultSlot st' = defaultSlot initial
        /\ sessionPools st' = sessionPools initial
        /\ Configure softhsm None st' = Returns (None, Some ErrNotConfigured) st').
Proof.
  apply (Configure_load_failure softhsm (by_serial "missing.so" "1234") initial).
  reflexivity.
Defined.

(** X8: after a first [Configure] that reports no error, the library was
    loaded and initialised and [defaultSlot] is one of the slots the
    module listed (with a token present), one whose token matches the
    configured serial number or label. *)
Theorem Configure_success_default_slot (pk : World) (c : PKCS11Config)
    (st st1 : State) (r : option Ctx) :
  libHandle st = None ->
  Configure pk (Some c) st = Returns (r, None) st1 ->
  exists h slots info,
    pkcs11_New pk (Path c) = Some h
    /\ mod_Initialize pk h = None
    /\ mod_GetSlotList pk h true = inl slots
    /\ defaultSlot st1 ∈ slots
    /\ mod_GetTokenInfo pk h (defaultSlot st1) = inl info
    /\ (SerialNumber info = TokenSerial c \/ Label info = TokenLabel c).
Proof.
  intros Hh Hrun.
  destruct (Configure_success_inv pk c st r st1 Hh Hrun)
    as (h & pre & slot & post & info & Hnew & _ & _ & Hinit & Hslots & _
        & Hinfo & Hmatch & Hslot & _).
  exists h, (pre ++ slot :: post), info. rewrite Hslot.
  repeat split; try assumption.
  apply elem_of_app. right. apply elem_of_cons. now left.
Qed.

Lemma Configure_success_default_slot_witness :
  exists h slots info,
    pkcs11_New softhsm (Path (by_serial "mod.so" "1234")) = Some h
    /\ mod_Initialize softhsm h = None
    /\ mod_GetSlotList softhsm h true = inl slots
    /\ defaultSlot (final_state (Configure softhsm
         (Some (by_serial "mod.so" "1234")) initial)) ∈ slots
    /\ mod_GetTokenInfo softhsm h (defaultSlot (final_state (Configure softhsm
         (Some (by_serial "mod.so" "1234")) initial))) = inl info
    /\ (SerialNumber info = TokenSerial (by_serial "mod.so" "1234")
        \/ Label info = TokenLabel (by_serial "mod.so" "1234")).
Proof.
  apply (Configure_success_default_slot softhsm (by_serial "mod.so" "1234")
           initial _ (Some 1)).
  - reflexivity.
  - vm_compute. reflexivity.
Defined.

(** X9: a first [Configure] reports no error for a token whose flags have
    [CKF_LOGIN_REQUIRED] set only if the module accepted a [Login] as
    [CKU_USER] with the configured PIN; with a PIN the module rejects on
    every session, [Configure] cannot succeed. *)
Theorem Configure_success_login_accepted (pk : World) (c : PKCS11Config)
    (st st1 : State) (r : option Ctx) :
  libHandle st = None ->
  Configure pk (Some c) st = Returns (r, None) st1 ->
  exists h info,
    pkcs11_New pk (Path c) = Some h
    /\ mod_GetTokenInfo pk h (defaultSlot st1) = inl info
    /\ (N.land (Flags info) CKF_LOGIN_REQUIRED <> 0 ->
        exists s, mod_Login pk h s CKU_USER (Pin c) = None).
Proof.
  intros Hh Hrun.
  destruct (Configure_success_inv pk c st r st1 Hh Hrun)
    as (h & pre & slot & post & info & Hnew & _ & _ & _ & _ & _
        & Hinfo & _ & Hslot & _ & _ & Hlogin).
  exists h, info. rewrite Hslot. auto.
Qed.

Lemma Configure_success_login_accepted_witness :
  exists h info,
    pkcs11_New softhsm (Path (by_serial "mod.so" "1234")) = Some h
    /\ mod_GetTokenInfo softhsm h (defaultSlot (final_state (Configure softhsm
         (Some (by_serial "mod.so" "1234")) initial))) = inl info
    /\ (N.land (Flags info) CKF_LOGIN_REQUIRED <> 0 ->
        exists s, mod_Login softhsm h s CKU_USER
                    (Pin (by_serial "mod.so" "1234")) = None).
Proof.
  apply (Configure_success_login_accepted softhsm (by_serial "mod.so" "1234")
           initial _ (Some 1)).
  - reflexivity.
  - vm_compute. reflexivity.
Defined.

(** X10: a [Configure] call that reports no error, first or not, writes
    nothing to the log and leaves the package's [session] variable as it
    was. *)
Theorem Configure_success_silent (pk : World) (config : option PKCS11Config)
    (st st1 : State) (r : option Ctx) :
  Configure pk config st = Returns (r, None) st1 ->
  logged st1 = logged st /\ session st1 = session st.
Proof.
  intros Hrun. destruct (libHandle st) as [h|] eqn:Hh.
  - rewrite (Configure_loaded pk config st h Hh) in Hrun.
    injection Hrun as _ <-. auto.
  - destruct config as [c|].
    + destruct (Configure_success_inv pk c st r st1 Hh Hrun)
        as (h & pre & slot & post & info & _ & _ & _ & _ & _ & _
            & _ & _ & _ & Hlog & Hsession & _).
      auto.
    + rewrite (Configure_nil_unloaded pk st Hh) in Hrun. discriminate.
Qed.

Lemma Configure_success_silent_witness :
  logged (final_state (Configure softhsm (Some (by_serial "mod.so" "1234")) initial))
    = logged initial
  /\ session (final_state (Configure softhsm (Some (by_serial "mod.so" "1234")) initial))
    = session initial.
Proof.
  apply (Configure_success_silent softhsm (Some (by_serial "mod.so" "1234"))
           initial _ (Some 1)).
  vm_compute. reflexivity.
Defined.

(** X11: when the module rejects the login, [Configure] returns the
    module's error and the log receives two lines carrying it: "Failed to
    login into PKCS#11 Token" from the function literal and then "Failed
    to open PKCS#11 Session" from [Configure] itself, although the session
    was opened. *)
Theorem Configure_login_rejected_logged_twice (pk : World) (st : State)
    (c : PKCS11Config) (h : Ctx) (pre : list uint) (slot : uint)
    (post : list uint) (info : TokenInfo) (s : SessionHandle) (rv : N) :
  libHandle st = None ->
  pkcs11_New pk (Path c) = Some h ->
  mod_Initialize pk h = None ->
  mod_GetSlotList pk h true = inl (pre ++ slot :: post) ->
  Forall (passed_over pk h (TokenSerial c) (TokenLabel c)) pre ->
  mod_GetTokenInfo pk h slot = inl info ->
  SerialNumber info = TokenSerial c \/ Label info = TokenLabel c ->
  setup_failure pk slot (MaxTokenSession c) = None ->
  (0 < MaxTokenSession c)%Z ->
  mod_OpenSession pk h slot rw_session = inl s ->
  N.land (Flags info) CKF_LOGIN_REQUIRED <> 0 ->
  mod_Login pk h s CKU_USER (Pin c) = Some rv ->
  exists st',
    Configure pk (Some c) st = Returns (None, Some (Pkcs11Error rv)) st'
    /\ logged st' = logged st ++
         [ {| fmt := "Failed to login into PKCS#11 Token: %s";
              arg := ArgError (Pkcs11Error rv) |};
           {| fmt := "Failed to open PKCS#11 Session: %s";
              arg := ArgError (Pkcs11Error rv) |} ]
    /\ CallOpenSession h slot rw_session ∈ calls st'.
Proof.
  intros Hh Hnew Hinit Hslots Hpre Hinfo Hmatch Hsetup Hmax Hopen Hset Hlogin.
  unfold Configure.
  rewrite (bind_Returns get_libHandle _ st (libHandle st) st eq_refl), Hh.
  rewrite (bind_Returns (assign_New pk (Path c)) _ st tt _ eq_refl).
  set (st1 := set_libHandle _ _).
  rewrite (bind_Returns get_libHandle _ st1 (libHandle st1) st1 eq_refl).
  change (libHandle st1) with (pkcs11_New pk (Path c)). rewrite Hnew.
  assert (Hh1 : libHandle st1 = Some h) by exact Hnew.
  rewrite (bind_Returns (call_Initialize pk) _ st1 None (record_call (CallInitialize h) st1)).
  2:{ unfold call_Initialize, via_libHandle. now rewrite Hh1, Hinit. }
  set (st2 := record_call (CallInitialize h) st1).
  rewrite (bind_Returns (call_GetSlotList pk true) _ st2 (inl (pre ++ slot :: post))
             (record_call (CallGetSlotList h true) st2)).
  2:{ unfold call_GetSlotList, via_libHandle.
      change (libHandle st2) with (libHandle st1). now rewrite Hh1, Hslots. }
  set (st3 := record_call (CallGetSlotList h true) st2).
  rewrite (bind_Returns _ _ st3 _ _
             (findToken_first_match pk st3 h pre slot post _ _ info Hh1 Hpre Hinfo Hmatch)).
  cbn iota beta.
  rewrite (bind_Returns (modify (set_defaultSlot slot)) _ _ tt _ eq_refl).
  set (st4 := set_defaultSlot slot _).
  rewrite (bind_Returns get_defaultSlot _ st4 slot st4 eq_refl).
  rewrite (bind_Returns (setupSessions pk slot (MaxTokenSession c)) _ st4 None
             (set_sessionPools (<[slot := newPool (MaxTokenSession c)]> (sessionPools st4)) st4)).
  2:{ unfold setupSessions. now rewrite Hsetup. }
  set (st5 := set_sessionPools _ st4).
  rewrite (bind_Returns get_defaultSlot _ st5 slot st5 eq_refl).
  assert (Hh5 : libHandle st5 = Some h).
  { cbn. now rewrite probed_libHandle. }
  assert (Hlog5 : logged st5 = logged st).
  { destruct (probed_frame h (pre ++ [slot]) st3) as ((_ & _ & _ & Hl) & _).
    cbn. now rewrite Hl. }
  pose proof (withSession_open pk slot (loginIfRequired pk (Flags info) c) st5 h
                (newPool (MaxTokenSession c)) s
                (lookup_insert_eq _ _ _) eq_refl Hmax Hh5 Hopen) as Hws.
  cbn zeta in Hws.
  set (st6 := set_sessionPools _ _) in Hws.
  assert (Hrun : loginIfRequired pk (Flags info) c s st6
                 = Returns (Some (Pkcs11Error rv))
                     (record_log {| fmt := "Failed to login into PKCS#11 Token: %s";
                                    arg := ArgError (Pkcs11Error rv) |}
                        (record_call (CallLogin h s CKU_USER (Pin c)) st6))).
  { unfold loginIfRequired, login_required.
    apply N.eqb_neq in Hset. rewrite Hset. cbn [negb].
    unfold bind, call_Login, via_libHandle.
    change (libHandle st6) with (libHandle st5). now rewrite Hh5, Hlogin. }
  rewrite Hrun in Hws. rewrite (bind_Returns _ _ _ _ _ Hws).
  eexists. split; [reflexivity|]. split.
  - cbn [logged record_log]. destruct (release_frame slot s
      (record_log {| fmt := "Failed to login into PKCS#11 Token: %s";
                     arg := ArgError (Pkcs11Error rv) |}
         (record_call (CallLogin h s CKU_USER (Pin c)) st6))) as (_ & _ & _ & Hl).
    rewrite Hl. cbn [logged record_log record_call set_sessionPools st6].
    rewrite Hlog5. now rewrite <- app_assoc.
  - cbn [calls record_log]. rewrite release_calls.
    cbn [calls record_log record_call set_sessionPools st6].
    apply elem_of_app. left. apply elem_of_app. right. apply elem_of_cons. now left.
Qed.

Lemma Configure_login_rejected_logged_twice_witness :
  exists st',
    Configure softhsm (Some (by_serial "mod.so" "0000")) initial
      = Returns (None, Some (Pkcs11Error 0xA0)) st'
    /\ logged st' = logged initial ++
         [ {| fmt := "Failed to login into PKCS#11 Token: %s";
              arg := ArgError (Pkcs11Error 0xA0) |};
           {| fmt := "Failed to open PKCS#11 Session: %s";
              arg := ArgError (Pkcs11Error 0xA0) |} ]
    /\ CallOpenSession 1 2 rw_session ∈ calls st'.
Proof.
  apply (Configure_login_rejected_logged_twice softhsm initial
           (by_serial "mod.so" "0000") 1 [1] 2 [] (token "Y" "S" 0x40D) 102 0xA0).
  - reflexivity.
  - reflexivity.
  - reflexivity.
  - reflexivity.
  - repeat constructor.
    eexists; (split; [reflexivity|split; discriminate]).
  - reflexivity.
  - left. reflexivity.
  - reflexivity.
  - reflexivity.
  - reflexivity.
  - discriminate.
  - reflexivity.
Defined.

(** ** Configuration from a file and at start-up *)

Section FromFileFacts.

Context (pk : World) (host : Host).

(** A nil error from [ConfigureFromFile] comes from a file that opened and
    decoded, and from the [Configure] call on what it held. *)
Lemma ConfigureFromFile_success_inv path p r p' :
  ConfigureFromFile pk host path p = Returned (r, None) p' ->
  exists file config st,
    os_Open host path = inl file
    /\ json_Decode host file = inl config
    /\ Configure pk (Some config) (pkg p) = Returns (r, None) st
    /\ pkg p' = st.
Proof.
  unfold ConfigureFromFile.
  destruct (os_Open host path) as [file|msg] eqn:Hopen; [|discriminate].
  destruct (json_Decode host file) as [config|msg] eqn:Hdecode; [|discriminate].
  cbn zeta. unfold in_process. cbn [pkg record_event].
  destruct (Configure pk (Some config) (pkg p)) as [[r0 e0] st| |] eqn:Hrun;
    cbn [deferred_Close]; try discriminate.
  unfold as_host. cbn [fst snd]. intros [= <- He <-].
  destruct e0; [discriminate|]. now exists file, config, st.
Qed.

(** [ConfigureFromFile] itself never calls [panic]. *)
Lemma ConfigureFromFile_panic path p v p' :
  ConfigureFromFile pk host path p = Panicked v p' -> v = NilDereference.
Proof.
  unfold ConfigureFromFile.
  destruct (os_Open host path) as [file|msg]; [|discriminate].
  destruct (json_Decode host file) as [config|msg]; [|discriminate].
  cbn zeta. unfold in_process.
  destruct (Configure pk (Some config) _) as [[r0 e0] st| |];
    cbn [deferred_Close]; try discriminate.
  now intros [= <- _].
Qed.

End FromFileFacts.

(** X12: when the file cannot be opened, or opens but does not decode,
    [ConfigureFromFile] returns a nil context and that error and writes one
    log line; it makes no call into the module and leaves the module
    handle, the default slot and the session pools as they were.  This
    holds on a configured library too, where [Configure] itself would have
    returned the handle. *)
Theorem ConfigureFromFile_unusable_file (pk : World) (host : Host)
    (path : string) (p : Process) (err : host_error) :
  (exists msg, os_Open host path = inr msg /\ err = OsError msg)
  \/ (exists file msg, os_Open host path = inl file
        /\ json_Decode host file = inr msg /\ err = JsonError msg) ->
  exists p' line,
    ConfigureFromFile pk host path p = Returned (None, Some err) p'
    /\ logged (pkg p') = logged (pkg p) ++ [line]
    /\ calls (pkg p') = calls (pkg p)
    /\ libHandle (pkg p') = libHandle (pkg p)
    /\ defaultSlot (pkg p') = defaultSlot (pkg p)
    /\ sessionPools (pkg p') = sessionPools (pkg p).
Proof.
  intros [(msg & Hopen & ->)|(file & msg & Hopen & Hdecode & ->)];
    unfold ConfigureFromFile; rewrite Hopen; [|rewrite Hdecode];
    eexists _, _; (split; [reflexivity|]); repeat split.
Qed.

Lemma ConfigureFromFile_unusable_file_witness :
  exists p' line,
    ConfigureFromFile softhsm configured_host "/etc/truncated.json"
      {| pkg := loaded; events := [] |}
      = Returned (None, Some (JsonError "unexpected EOF")) p'
    /\ logged (pkg p') = logged loaded ++ [line]
    /\ calls (pkg p') = calls loaded
    /\ libHandle (pkg p') = libHandle loaded
    /\ defaultSlot (pkg p') = defaultSlot loaded
    /\ sessionPools (pkg p') = sessionPools loaded.
Proof.
  apply (ConfigureFromFile_unusable_file softhsm configured_host
           "/etc/truncated.json" {| pkg := loaded; events := [] |}).
  right. exists 4, "unexpected EOF". repeat split.
Defined.

(** X13: [ConfigureFromFile] closes what it opens: the file events it adds
    are none when the open fails and otherwise the open, the decoding and
    one close, on every path that returns or panics; only a call that
    never returns leaves the file open. *)
Theorem ConfigureFromFile_closes_file (pk : World) (host : Host)
    (path : string) (p : Process) :
  events (end_process (ConfigureFromFile pk host path p))
  = events p ++
    match os_Open host path with
    | inr _ => []
    | inl file =>
        [Opened path file; Decoded file] ++
        match ConfigureFromFile pk host path p with
        | Blocked _ => []
        | _ => [Closed file]
        end
    end.
Proof.
  unfold ConfigureFromFile.
  destruct (os_Open host path) as [file|msg]; [|cbn; now rewrite app_nil_r].
  cbn zeta. destruct (json_Decode host file) as [config|msg].
  - unfold in_process.
    destruct (Configure pk (Some config) _) as [r st|st|st]; cbn;
      rewrite <- ?app_assoc; reflexivity.
  - cbn. rewrite <- !app_assoc. reflexivity.
Qed.

(** X14: when the file opens and decodes, [ConfigureFromFile] is
    [Configure] on the decoded configuration: the package state it leaves
    is the one [Configure] leaves and what [Configure] returns is passed
    on.  In particular, on a library that is already configured it
    returns the stored handle whatever the file says. *)
Theorem ConfigureFromFile_is_Configure (pk : World) (host : Host)
    (path : string) (p : Process) (file : File) (config : PKCS11Config) :
  os_Open host path = inl file ->
  json_Decode host file = inl config ->
  pkg (end_process (ConfigureFromFile pk host path p))
    = final_state (Configure pk (Some config) (pkg p))
  /\ (forall r st,
        Configure pk (Some config) (pkg p) = Returns r st ->
        exists p', ConfigureFromFile pk host path p = Returned (as_host r) p'
                   /\ pkg p' = st)
  /\ (forall h,
        libHandle (pkg p) = Some h ->
        exists p', ConfigureFromFile pk host path p = Returned (Some h, None) p'
                   /\ pkg p' = pkg p).
Proof.
  intros Hopen Hdecode.
  assert (Hret : forall r st,
            Configure pk (Some config) (pkg p) = Returns r st ->
            exists p', ConfigureFromFile pk host path p = Returned (as_host r) p'
                       /\ pkg p' = st).
  { intros r st Hrun. unfold ConfigureFromFile. rewrite Hopen, Hdecode.
    cbn zeta. unfold in_process. cbn [pkg record_event]. rewrite Hrun.
    eexists. split; reflexivity. }
  split; [|split; [exact Hret|]].
  - unfold ConfigureFromFile. rewrite Hopen, Hdecode. cbn zeta.
    unfold in_process. cbn [pkg record_event].
    now destruct (Configure pk (Some config) (pkg p)).
  - intros h Hh.
    apply (Hret (Some h, None) (pkg p)). now apply Configure_loaded.
Qed.

Lemma ConfigureFromFile_is_Configure_witness :
  pkg (end_process (ConfigureFromFile softhsm configured_host
         "/etc/crypto11.json" fresh_process))
    = final_state (Configure softhsm (Some (by_serial "mod.so" "1234"))
                     (pkg fresh_process))
  /\ (forall r st,
        Configure softhsm (Some (by_serial "mod.so" "1234")) (pkg fresh_process)
          = Returns r st ->
        exists p', ConfigureFromFile softhsm configured_host
                     "/etc/crypto11.json" fresh_process = Returned (as_host r) p'
                   /\ pkg p' = st)
  /\ (forall h,
        libHandle (pkg fresh_process) = Some h ->
        exists p', ConfigureFromFile softhsm configured_host
                     "/etc/crypto11.json" fresh_process = Returned (Some h, None) p'
                   /\ pkg p' = pkg fresh_process).
Proof.
  apply (ConfigureFromFile_is_Configure softhsm configured_host
           "/etc/crypto11.json" fresh_process 3 (by_serial "mod.so" "1234"));
    reflexivity.
Defined.

(** X15: if [init] returns, then either the environment variable is unset
    and nothing has happened, or the library is configured from the file
    it names: the module handle is set and every later [Configure], with
    whatever configuration, returns that handle and changes nothing, so
    the file overrides any later runtime configuration.  With the
    variable unset [init] does return. *)
Theorem init_configures_or_skips (pk : World) (host : Host) (p p' : Process) :
  (init pk host p = Returned tt p' ->
   match os_LookupEnv host "CRYPTO11_CONFIG_PATH" with
   | None => p' = p
   | Some _ =>
       exists h, libHandle (pkg p') = Some h
         /\ forall config,
              Configure pk config (pkg p') = Returns (Some h, None) (pkg p')
   end)
  /\ (os_LookupEnv host "CRYPTO11_CONFIG_PATH" = None ->
      init pk host p = Returned tt p).
Proof.
  unfold init. split.
  - destruct (os_LookupEnv host "CRYPTO11_CONFIG_PATH") as [loc|];
      [|now intros [= <-]].
    destruct (ConfigureFromFile pk host loc p) as [[r [e|]] p1|p1|v p1] eqn:Hrun;
      try discriminate.
    intros [= <-].
    destruct (ConfigureFromFile_success_inv pk host loc p r p1 Hrun)
      as (file & config & st & _ & _ & Hconf & Hpkg).
    destruct (Configure_success pk (Some config) (pkg p) r st Hconf)
      as (h & _ & Hh).
    exists h. rewrite Hpkg. split; [exact Hh|].
    intros config'. now apply Configure_loaded.
  - now intros ->.
Qed.

Lemma init_configures_or_skips_witness :
  match os_LookupEnv configured_host "CRYPTO11_CONFIG_PATH" with
  | None => end_process (init softhsm configured_host fresh_process) = fresh_process
  | Some _ =>
      exists h,
        libHandle (pkg (end_process (init softhsm configured_host fresh_process)))
          = Some h
        /\ forall config,
             Configure softhsm config
               (pkg (end_process (init softhsm configured_host fresh_process)))
             = Returns (Some h, None)
                 (pkg (end_process (init softhsm configured_host fresh_process)))
  end.
Proof.
  apply (proj1 (init_configures_or_skips softhsm configured_host fresh_process
                  (end_process (init softhsm configured_host fresh_process)))).
  vm_compute. reflexivity.
Defined.

(** X16: [init] panics with an error exactly when the environment variable
    is set and [ConfigureFromFile] on the file it names returns that
    error; the process is then left as [ConfigureFromFile] left it. *)
Theorem init_panics_on_error (pk : World) (host : Host) (p p' : Process)
    (e : host_error) :
  init pk host p = Panicked (PanicError e) p'
  <-> exists loc r,
        os_LookupEnv host "CRYPTO11_CONFIG_PATH" = Some loc
        /\ ConfigureFromFile pk host loc p = Returned (r, Some e) p'.
Proof.
  unfold init. split.
  - destruct (os_LookupEnv host "CRYPTO11_CONFIG_PATH") as [loc|]; [|discriminate].
    destruct (ConfigureFromFile pk host loc p) as [[r [e'|]] p1|p1|v p1] eqn:Hrun;
      try discriminate.
    + intros [= <- <-]. now exists loc, r.
    + intros [= -> <-].
      now pose proof (ConfigureFromFile_panic pk host loc p _ _ Hrun).
  - intros (loc & r & -> & ->). reflexivity.
Qed.

Lemma init_panics_on_error_witness :
  init softhsm misconfigured_host fresh_process
  = Panicked (PanicError (JsonError "unexpected EOF"))
      (end_process (ConfigureFromFile softhsm misconfigured_host
                      "/etc/truncated.json" fresh_process)).
Proof.
  apply (proj2 (init_panics_on_error softhsm misconfigured_host fresh_process
                  _ (JsonError "unexpected EOF"))).
  exists "/etc/truncated.json", None. split; reflexivity.
Defined.

(** ** No nil dereference *)

Section NoPanic.

Context (pk : World).

Lemma safe_ret {A} (a : A) : safe_when_loaded (ret a).
Proof. intros st _. exact I. Qed.

Lemma safe_bind {A B} (m : M A) (k : A -> M B) :
  safe_when_loaded m -> keeps_libHandle m ->
  (forall a, safe_when_loaded (k a)) -> safe_when_loaded (bind m k).
Proof.
  intros Hm Hkeep Hk st Hloaded. unfold bind.
  specialize (Hm st Hloaded). specialize (Hkeep st).
  destruct (m st) as [a st'| |]; try exact I; [|contradiction].
  apply Hk. cbn in Hkeep. now rewrite Hkeep.
Qed.

Lemma safe_via_libHandle {A} (c : Ctx -> call) (answer : Ctx -> A) :
  safe_when_loaded (via_libHandle c answer).
Proof.
  intros st [h Hh]. unfold via_libHandle. now rewrite Hh.
Qed.

Lemma safe_findToken slots serial label :
  safe_when_loaded (findToken pk slots serial label).
Proof.
  intros st [h Hh].
  destruct (findToken_reads_prefix_gen pk st h slots serial label Hh)
    as (k & r & _ & ->).
  exact I.
Qed.

Lemma safe_withSession slot f :
  (forall s, safe_when_loaded (f s)) -> safe_when_loaded (withSession pk slot f).
Proof.
  intros Hf st [h Hh]. unfold withSession.
  pose proof (keeps_acquire pk slot st) as Hkeep.
  assert (Hacq : match acquire pk slot st with Panics _ => False | _ => True end).
  { unfold acquire. destruct (sessionPools st !! slot) as [p|]; [|exact I].
    destruct (acquire_from p); try exact I. rewrite Hh.
    now destruct (mod_OpenSession pk h slot rw_session). }
  destruct (acquire pk slot st) as [[s|err] st1|st1|st1]; try exact I;
    [|contradiction].
  cbn in Hkeep. specialize (Hf s st1). rewrite Hkeep in Hf.
  specialize (Hf (ex_intro _ h Hh)).
  now destruct (f s st1).
Qed.

Lemma safe_loginIfRequired flags c s :
  safe_when_loaded (loginIfRequired pk flags c s).
Proof.
  unfold loginIfRequired. destruct (login_required flags); [|apply safe_ret].
  apply safe_bind; [apply safe_via_libHandle|apply keeps_via_libHandle|].
  intros [e|]; [|apply safe_ret].
  apply safe_bind; [intros st _; exact I|apply keeps_Printf|intros; apply safe_ret].
Qed.

End NoPanic.

(** No [Configure] call ends in a panic. *)
Lemma Configure_safe (pk : World) (config : option PKCS11Config)
    (st : State) :
  match Configure pk config st with
  | Panics _ => False
  | _ => True
  end.
Proof.
  destruct (libHandle st) as [h|] eqn:Hh.
  { now rewrite (Configure_loaded pk config st h Hh). }
  destruct config as [c|]; [|now rewrite (Configure_nil_unloaded pk st Hh)].
  unfold Configure.
  rewrite (bind_Returns get_libHandle _ st (libHandle st) st eq_refl), Hh.
  rewrite (bind_Returns (assign_New pk (Path c)) _ st tt _ eq_refl).
  set (st1 := set_libHandle _ _).
  rewrite (bind_Returns get_libHandle _ st1 (libHandle st1) st1 eq_refl).
  change (libHandle st1) with (pkcs11_New pk (Path c)).
  destruct (pkcs11_New pk (Path c)) as [h|] eqn:Hnew; [|exact I].
  match goal with |- match ?m st1 with _ => _ end =>
    assert (Hsafe : safe_when_loaded m) end.
  { apply safe_bind; [apply safe_via_libHandle|apply keeps_via_libHandle|].
    intros [e|].
    { apply safe_bind; [intros ? _; exact I|apply keeps_Printf|intros; apply safe_ret]. }
    apply safe_bind; [apply safe_via_libHandle|apply keeps_via_libHandle|].
    intros [slots|e].
    2:{ apply safe_bind; [intros ? _; exact I|apply keeps_Printf|intros; apply safe_ret]. }
    apply safe_bind; [apply safe_findToken|apply keeps_findToken|].
    intros [[slot flags] err].
    apply safe_bind; [intros ? _; exact I|apply keeps_set_defaultSlot|intros _].
    destruct err as [e|].
    { apply safe_bind; [intros ? _; exact I|apply keeps_Printf|intros; apply safe_ret]. }
    apply safe_bind; [intros ? _; exact I|apply keeps_get_defaultSlot|intros slot'].
    apply safe_bind; [|apply keeps_setupSessions|].
    { intros st0 _. unfold setupSessions.
      now destruct (setup_failure pk slot' (MaxTokenSession c)). }
    intros [e|]; [apply safe_ret|].
    apply safe_bind; [intros ? _; exact I|apply keeps_get_defaultSlot|intros slot''].
    apply safe_bind.
    - apply safe_withSession. intros s. apply safe_loginIfRequired.
    - apply keeps_withSession. intros s. apply keeps_loginIfRequired.
    - intros [e|].
      + apply safe_bind; [intros ? _; exact I|apply keeps_Printf|intros; apply safe_ret].
      + apply safe_bind; [intros ? _; exact I|intros ?; reflexivity|intros; apply safe_ret]. }
  exact (Hsafe st1 (ex_intro _ h eq_refl)).
Qed.

(** X17: [Configure] never calls a method of the module handle while the
    handle is nil: whatever the configuration, the state it starts from
    and the module's answers, the call does not end in a nil-dereference
    panic. *)
Theorem Configure_never_panics (pk : World) (config : option PKCS11Config)
    (st : State) :
  match Configure pk config st with
  | Panics _ => False
  | _ => True
  end.
Proof. apply Configure_safe. Qed.

(** X18: [ConfigureFromFile] never panics, and the only panic [init] can
    end in is its own [panic(err)] with the error [ConfigureFromFile]
    returned. *)
Theorem file_configuration_panics_only_on_error (pk : World) (host : Host)
    (path : string) (p : Process) :
  match ConfigureFromFile pk host path p with
  | Panicked _ _ => False
  | _ => True
  end
  /\ match init pk host p with
     | Panicked NilDereference _ => False
     | _ => True
     end.
Proof.
  assert (Hfile : forall loc,
            match ConfigureFromFile pk host loc p with
            | Panicked _ _ => False
            | _ => True
            end).
  { intros loc. unfold ConfigureFromFile.
    destruct (os_Open host loc) as [file|msg]; [|exact I].
    cbn zeta. destruct (json_Decode host file) as [config|msg]; [|exact I].
    unfold in_process.
    pose proof (Configure_safe pk (Some config)
                  (pkg (record_event (Decoded file)
                          (record_event (Opened loc file) p)))) as Hsafe.
    now destruct (Configure pk (Some config) _). }
  split; [apply Hfile|].
  unfold init. destruct (os_LookupEnv host "CRYPTO11_CONFIG_PATH") as [loc|];
    [|exact I].
  specialize (Hfile loc).
  destruct (ConfigureFromFile pk host loc p) as [[r [e|]] p1|p1|v p1];
    try exact I. contradiction.
Qed.
